(** * Quantization passes of the JIT: observer insertion and
      quantize/dequantize insertion

    A shallow embedding of [torch/csrc/jit/passes/quantization.cpp].  The
    graph IR the passes run on ([ir.h]) is modelled as an arena: nodes,
    values and blocks live in three lists and a handle is an index into
    its list, so a freshly created object always gets the next free
    index. *)

From Stdlib Require Import DecimalString QArith.
From stdpp Require Import base list strings gmap.

(** ** The graph IR *)

Module IR.

(** Modelled from the spec: the static type tag of a value ([ir.h] and
    [jit_type.h] are not part of the sources at hand).  Only the test
    "is a subtype of Tensor" is ever asked. *)
Inductive JitType :=
  | TensorType
  | DimensionedTensorType
  | CompleteTensorType
  | FloatType
  | IntType
  | BoolType
  | StringType
  | NoneType.

Definition isSubtypeOfTensor (t : JitType) : bool :=
  match t with
  | TensorType | DimensionedTensorType | CompleteTensorType => true
  | _ => false
  end.

(** Modelled from the spec: the literals of [ivalue.h] that the passes
    hand to [insertConstant]. *)
Inductive IValue :=
  | Double (q : Q)
  | Int (z : Z)
  | Str (s : string).

(** Modelled from the spec: the classes [Value], [Node], [Block] and
    [Graph] of [ir.h].  A [Value*], [Node*] or [Block*] of the source is
    the index of the object in the arena of its graph. *)
Abbreviation ValueId := nat (only parsing).
Abbreviation NodeId := nat (only parsing).
Abbreviation BlockId := nat (only parsing).

Record Value := mkValue {
  type_ : JitType;
  unique_name_ : string;      (* empty: the value has no name of its own *)
  node_ : NodeId              (* the producer *)
}.

Record Node := mkNode {
  kind : string;              (* qualified symbol, e.g. aten::relu *)
  schema : string;            (* operator signature the node resolves to *)
  inputs : list ValueId;
  outputs : list ValueId;
  blocks : list BlockId;
  owning_block : option BlockId;
  scope : string;
  attr : option IValue        (* attr::value of a prim::Constant *)
}.

(** Modelled from the spec: a block keeps its nodes in evaluation order.  [input_] is its
    prim::Param node (whose outputs are the block inputs) and [output_]
    its prim::Return node (whose inputs are the block outputs); neither
    is an element of [nodes].  [output_] is the sentinel that closes the
    node list. *)
Record Block := mkBlock {
  nodes : list NodeId;
  input_ : NodeId;
  output_ : NodeId;
  owning_node : option NodeId (* the node the block is nested in *)
}.

Record Graph := mkGraph {
  g_nodes : list Node;
  g_values : list Value;
  g_blocks : list Block;
  current_scope_ : string;
  insert_before_ : NodeId     (* the insertion cursor *)
}.

#[global] Instance Value_inhabited : Inhabited Value :=
  populate (mkValue NoneType "" 0).
#[global] Instance Node_inhabited : Inhabited Node :=
  populate (mkNode "" "" [] [] [] None "" None).
#[global] Instance Block_inhabited : Inhabited Block :=
  populate (mkBlock [] 0 0 None).

(** *** Reading the graph *)

Definition node (g : Graph) (n : NodeId) : Node := g_nodes g !!! n.
Definition value (g : Graph) (v : ValueId) : Value := g_values g !!! v.
Definition block (g : Graph) (b : BlockId) : Block := g_blocks g !!! b.

(** Modelled from the spec: [graph->block()]; the top-level block is the
    first one allocated. *)
Definition top_block : BlockId := 0.

(** Modelled from the spec: [b->nodes()], [b->inputs()] and
    [b->outputs()] of [ir.h]. *)
Definition block_nodes (g : Graph) (b : BlockId) : list NodeId :=
  nodes (block g b).
Definition block_inputs (g : Graph) (b : BlockId) : list ValueId :=
  outputs (node g (input_ (block g b))).
Definition block_outputs (g : Graph) (b : BlockId) : list ValueId :=
  inputs (node g (output_ (block g b))).

(** Modelled from the spec: [graph->inputs()]. *)
Definition graph_inputs (g : Graph) : list ValueId := block_inputs g top_block.

(** Modelled from the spec: [*graph->nodes().begin()], the first node of
    the top-level block; in an empty block the iterator already stands on
    the sentinel. *)
Definition first_node (g : Graph) : NodeId :=
  match block_nodes g top_block with
  | n :: _ => n
  | [] => output_ (block g top_block)
  end.

(** [std::to_string] on a value number. *)
Definition to_string (n : nat) : string :=
  NilZero.string_of_uint (Nat.to_uint n).

(** Modelled from the spec: [v->uniqueName()], the value's own name, or
    its number. *)
Definition uniqueName (g : Graph) (v : ValueId) : string :=
  let s := unique_name_ (value g v) in
  if decide (s = "") then to_string v else s.

(** The consumers of [v]: every node that reads [v] at least once. *)
Definition consumers (g : Graph) (v : ValueId) : list NodeId :=
  filter (λ n, v ∈ inputs (node g n)) (seq 0 (length (g_nodes g))).

(** *** Updating one field of an object *)

Definition with_inputs (f : list ValueId → list ValueId) (nd : Node) : Node :=
  mkNode (kind nd) (schema nd) (f (inputs nd)) (outputs nd) (blocks nd)
         (owning_block nd) (scope nd) (attr nd).
Definition with_outputs (f : list ValueId → list ValueId) (nd : Node) : Node :=
  mkNode (kind nd) (schema nd) (inputs nd) (f (outputs nd)) (blocks nd)
         (owning_block nd) (scope nd) (attr nd).
Definition with_owning_block (b : option BlockId) (nd : Node) : Node :=
  mkNode (kind nd) (schema nd) (inputs nd) (outputs nd) (blocks nd)
         b (scope nd) (attr nd).
Definition with_scope (s : string) (nd : Node) : Node :=
  mkNode (kind nd) (schema nd) (inputs nd) (outputs nd) (blocks nd)
         (owning_block nd) s (attr nd).
Definition with_attr (a : option IValue) (nd : Node) : Node :=
  mkNode (kind nd) (schema nd) (inputs nd) (outputs nd) (blocks nd)
         (owning_block nd) (scope nd) a.
Definition with_type (t : JitType) (vd : Value) : Value :=
  mkValue t (unique_name_ vd) (node_ vd).
Definition with_name (s : string) (vd : Value) : Value :=
  mkValue (type_ vd) s (node_ vd).
Definition with_nodes (f : list NodeId → list NodeId) (bd : Block) : Block :=
  mkBlock (f (nodes bd)) (input_ bd) (output_ bd) (owning_node bd).

Definition upd_node (n : NodeId) (f : Node → Node) (g : Graph) : Graph :=
  mkGraph (alter f n (g_nodes g)) (g_values g) (g_blocks g)
          (current_scope_ g) (insert_before_ g).
Definition upd_value (v : ValueId) (f : Value → Value) (g : Graph) : Graph :=
  mkGraph (g_nodes g) (alter f v (g_values g)) (g_blocks g)
          (current_scope_ g) (insert_before_ g).
Definition upd_block (b : BlockId) (f : Block → Block) (g : Graph) : Graph :=
  mkGraph (g_nodes g) (g_values g) (alter f b (g_blocks g))
          (current_scope_ g) (insert_before_ g).
Definition map_nodes (f : Node → Node) (g : Graph) : Graph :=
  mkGraph (f <$> g_nodes g) (g_values g) (g_blocks g)
          (current_scope_ g) (insert_before_ g).

(** *** The operations of the IR the passes call

    Modelled from the spec: the graph IR interface (node creation by
    operator identity, cloning, input append and replace, value naming,
    constant insertion at a cursor, consumer redirection) lives in
    [ir.h], [ir.cpp] and [constants.cpp], which are not among the
    sources.  Handles that do not denote an object of the graph are
    outside every precondition of the IR; the model reads a default
    object there. *)

(** Modelled from the spec: [setInsertPoint], which [WithInsertPoint]
    calls to set the cursor. *)
Definition setInsertPoint (n : NodeId) (g : Graph) : Graph :=
  mkGraph (g_nodes g) (g_values g) (g_blocks g) (current_scope_ g) n.

(** Modelled from the spec: [n->addOutput()], a new value, Tensor-typed
    and unnamed, owned by [n]. *)
Definition addOutput (n : NodeId) (g : Graph) : ValueId * Graph :=
  let v := length (g_values g) in
  (v, upd_node n (with_outputs (λ l, l ++ [v]))
        (mkGraph (g_nodes g) (g_values g ++ [mkValue TensorType "" n])
                 (g_blocks g) (current_scope_ g) (insert_before_ g))).

Fixpoint addOutputs (k : nat) (n : NodeId) (g : Graph) : Graph :=
  match k with
  | 0 => g
  | S k' => addOutputs k' n (addOutput n g).2
  end.

(** Modelled from the spec: [graph->create(kind, num_outputs)], a new
    node outside every block, carrying the current scope. *)
Definition create (k : string) (num_outputs : nat) (g : Graph)
  : NodeId * Graph :=
  let n := length (g_nodes g) in
  (n, addOutputs num_outputs n
        (mkGraph (g_nodes g ++ [mkNode k "" [] [] [] None (current_scope_ g) None])
                 (g_values g) (g_blocks g) (current_scope_ g)
                 (insert_before_ g))).

(** Modelled from the spec: [n->output()], the only output of [n]. *)
Definition output (g : Graph) (n : NodeId) : ValueId :=
  outputs (node g n) !!! 0.

(** Modelled from the spec: [v->setType(t)]. *)
Definition setType (v : ValueId) (t : JitType) (g : Graph) : Graph :=
  upd_value v (with_type t) g.

(** Modelled from the spec: [v->setUniqueName(s)].  The renaming of a previous owner of the same
    name, which the IR library does to keep names unique, is not
    modelled: the passes only read the name they have just given. *)
Definition setUniqueName (v : ValueId) (s : string) (g : Graph) : Graph :=
  upd_value v (with_name s) g.

(** Modelled from the spec: [n->setScope(s)]. *)
Definition setScope (n : NodeId) (s : string) (g : Graph) : Graph :=
  upd_node n (with_scope s) g.

(** Modelled from the spec: [n->addInput(v)]. *)
Definition addInput (n : NodeId) (v : ValueId) (g : Graph) : Graph :=
  upd_node n (with_inputs (λ l, l ++ [v])) g.

Definition subst (from to : ValueId) (x : ValueId) : ValueId :=
  if decide (x = from) then to else x.

(** Modelled from the spec: [n->replaceInputWith(from, to)], every
    occurrence of [from] among the inputs of [n]. *)
Definition replaceInputWith (n : NodeId) (from to : ValueId) (g : Graph)
  : Graph :=
  upd_node n (with_inputs (fmap (subst from to))) g.

(** Modelled from the spec: [v->replaceAllUsesWith(w)], every use of
    [v], in every node of the graph (the Return nodes of the blocks
    included). *)
Definition replaceAllUsesWith (v w : ValueId) (g : Graph) : Graph :=
  map_nodes (with_inputs (fmap (subst v w))) g.

(** Placing [x] in a node list next to [n]. *)
Fixpoint list_insert_before (x n : NodeId) (l : list NodeId) : list NodeId :=
  match l with
  | [] => []
  | y :: l' =>
      if decide (y = n) then x :: y :: l' else y :: list_insert_before x n l'
  end.

Fixpoint list_insert_after (x n : NodeId) (l : list NodeId) : list NodeId :=
  match l with
  | [] => []
  | y :: l' =>
      if decide (y = n) then y :: x :: l' else y :: list_insert_after x n l'
  end.

(** Modelled from the spec: [x->insertBefore(n)]; [x] joins the block of
    [n], right before [n]; before the Return sentinel means at the end
    of the block. *)
Definition insertBefore (x n : NodeId) (g : Graph) : Graph :=
  match owning_block (node g n) with
  | Some b =>
      upd_block b
        (with_nodes (λ l, if decide (n = output_ (block g b))
                          then l ++ [x] else list_insert_before x n l))
        (upd_node x (with_owning_block (Some b)) g)
  | None => g
  end.

(** Modelled from the spec: [x->insertAfter(n)]; [x] joins the block of
    [n], right after [n]. *)
Definition insertAfter (x n : NodeId) (g : Graph) : Graph :=
  match owning_block (node g n) with
  | Some b =>
      upd_block b (with_nodes (list_insert_after x n))
        (upd_node x (with_owning_block (Some b)) g)
  | None => g
  end.

(** Modelled from the spec: [graph->insertNode(n)], before the
    cursor. *)
Definition insertNode (n : NodeId) (g : Graph) : Graph :=
  insertBefore n (insert_before_ g) g.

(** Modelled from the spec: the type [insertConstant] gives the output
    of the constant. *)
Definition constant_type (c : IValue) : JitType :=
  match c with
  | Double _ => FloatType
  | Int _ => IntType
  | Str _ => StringType
  end.

(** Modelled from the spec: [graph->insertConstant(c)], a prim::Constant
    node holding [c], inserted at the cursor; its output is returned. *)
Definition insertConstant (c : IValue) (g : Graph) : ValueId * Graph :=
  let '(n, g) := create "prim::Constant" 1 g in
  let g := upd_node n (with_attr (Some c)) g in
  let g := setType (output g n) (constant_type c) g in
  let g := insertNode n g in
  (output g n, g).

(** Modelled from the spec: the observer template handed to the observer
    pass, a [Node*] that may belong to another graph, of which only what
    [createClone] copies is kept.  [t_outputs] lists type and name of its
    outputs. *)
Record Template := mkTemplate {
  t_kind : string;
  t_schema : string;
  t_scope : string;
  t_attr : option IValue;
  t_outputs : list (JitType * string);
  t_inputs : list ValueId
}.

(** Modelled from the spec: [v->copyMetadata(from)], the type and, when
    there is one, the name. *)
Definition copyMetadata (v : ValueId) (m : JitType * string) (g : Graph)
  : Graph :=
  let g := setType v m.1 g in
  if decide (m.2 = "") then g else setUniqueName v m.2 g.

(** Modelled from the spec: [graph->createClone(t, id, false)] with the
    identity as value map:
    a new node of the kind of [t] with a copy of each output of [t],
    the attributes and scope of [t], the inputs of [t], and no blocks. *)
Definition createClone (t : Template) (g : Graph) : NodeId * Graph :=
  let n := length (g_nodes g) in
  let g := mkGraph (g_nodes g ++ [mkNode (t_kind t) (t_schema t) [] [] [] None
                                         (current_scope_ g) None])
                   (g_values g) (g_blocks g) (current_scope_ g)
                   (insert_before_ g) in
  let g := fold_left (λ g m, let '(v, g) := addOutput n g in copyMetadata v m g)
                     (t_outputs t) g in
  let g := upd_node n (λ nd, with_attr (t_attr t) (with_scope (t_scope t) nd)) g in
  let g := fold_left (λ g i, addInput n i g) (t_inputs t) g in
  (n, g).

End IR.

(** ** The passes of quantization.cpp *)

Module Quantization.
Import IR.

(** What a pass call ends with: it returns, or an exception leaves it.
    [AT_ASSERT] raises the first kind, [throw std::runtime_error] the
    second. *)
Inductive Exn :=
  | AssertionFailure
  | RuntimeError (msg : string).

Inductive Outcome :=
  | Returned
  | Raised (e : Exn).

(** The operator set of [checkIfNodeQuantizable]. *)
Definition quantnodeLookup : list string :=
  [ "aten::conv2d(Tensor input, Tensor weight, Tensor? bias=None, int[2] stride=1, int[2] padding=0, int[2] dilation=1, int groups=1) -> Tensor";
    "aten::relu(Tensor self) -> Tensor";
    "aten::_convolution(Tensor input, Tensor weight, Tensor? bias, int[] stride, int[] padding, int[] dilation, bool transposed, int[] output_padding, int groups, bool benchmark, bool deterministic, bool cudnn_enabled) -> Tensor" ].

(** Modelled from the spec: [OperatorSet::find] is declared in
    [operator.h]; a node is found when the signature it resolves to is
    one of the set. *)
Definition checkIfNodeQuantizable (g : Graph) (n : NodeId) : bool :=
  bool_decide (schema (node g n) ∈ quantnodeLookup).

Definition insertQuantNodeParams (quant : NodeId) (qparam : Q * Z) (g : Graph)
  : Graph :=
  let saved := insert_before_ g in
  let g := setInsertPoint quant g in
  let '(scale, g) := insertConstant (Double qparam.1) g in
  let '(zeropoint, g) := insertConstant (Int qparam.2) g in
  let g := addInput quant scale g in
  let g := addInput quant zeropoint g in
  setInsertPoint saved g.

(** Create Quant-Dequant node pair for quantizable Value *)
Definition createQuantDeQuantNodes (v : ValueId) (n : NodeId) (g : Graph)
  : (NodeId * NodeId) * Graph :=
  let '(quant, g) := create "aten::quantize_linear" 1 g in
  let g := setUniqueName (output g quant) (uniqueName g v +:+ ".quant") g in
  let '(dequant, g) := create "aten::dequantize" 1 g in
  let g := setUniqueName (output g dequant) (uniqueName g v +:+ ".dequant") g in
  let g := setScope quant (scope (node g n)) g in
  let g := setScope dequant (scope (node g n)) g in
  ((quant, dequant), g).

(** Insert Quant-Dequant node pair for quantizable node outputs *)
Definition addQuantDeQuantNodes (v : ValueId) (g : Graph) : Graph :=
  let n := node_ (value g v) in
  let '((quant, dequant), g) := createQuantDeQuantNodes v n g in
  (* Add quant-dequant nodes and replace for all uses of Value *)
  let g := insertAfter quant n g in
  let g := insertAfter dequant quant g in
  let g := replaceAllUsesWith v (output g dequant) g in
  (* Attach inputs to quant and dequant nodes *)
  let g := addInput quant v g in
  let g := insertQuantNodeParams quant (Qmake 1 1, 0%Z) g in
  addInput dequant (output g quant) g.

(** Insert Quant-Dequant node pair for specific input to node n *)
Definition addQuantDeQuantNodesForInput (v : ValueId) (n : NodeId) (g : Graph)
  : Graph :=
  let '((quant, dequant), g) := createQuantDeQuantNodes v n g in
  let g := insertBefore dequant n g in
  let g := insertBefore quant dequant g in
  let g := replaceInputWith n v (output g dequant) g in
  (* Attach inputs to quant and dequant nodes *)
  let g := addInput quant v g in
  let g := insertQuantNodeParams quant (Qmake 1 1, 0%Z) g in
  addInput dequant (output g quant) g.

Definition PropagateQuantInfo (g : Graph) : Graph * Outcome :=
  (g, Raised (RuntimeError "Pass not implemented yet!")).

Definition addObserverFor (v : ValueId) (original_observer_node : Template)
    (insert_point : NodeId) (g : Graph) : NodeId * Graph :=
  let saved := insert_before_ g in
  let g := setInsertPoint insert_point g in
  (* a constant holding the value name *)
  let '(vname, g) := insertConstant (Str (uniqueName g v)) g in
  (* the new observer node is a clone of the original one *)
  let '(observerNode, g) := createClone original_observer_node g in
  (* type and name of the output of the new observer node *)
  let '(observedValue, g) := addOutput observerNode g in
  let g := setType observedValue (type_ (value g v)) g in
  let g := setUniqueName observedValue (uniqueName g v +:+ ".observed") g in
  (* now the inputs *)
  let g := addInput observerNode v g in
  let g := addInput observerNode vname g in
  (observerNode, setInsertPoint saved g).

Definition outputsNeedToBeObserved (g : Graph) (n : NodeId) : bool :=
  negb (bool_decide (kind (node g n) = "prim::Constant")).

(** The loop over the activation inputs of [InsertObserverNodes]. *)
Definition observe_input (observer_node : Template) (insert_node : NodeId)
    (st : Graph * gset NodeId) (idx : nat) : Graph * gset NodeId :=
  let '(g, observer_for_input) := st in
  let v := graph_inputs g !!! idx in
  if isSubtypeOfTensor (type_ (value g v)) then
    let '(new_observer_node, g) := addObserverFor v observer_node insert_node g in
    let g := insertBefore new_observer_node insert_node g in
    (g, {[new_observer_node]} ∪ observer_for_input)
  else (g, observer_for_input).

(** The body of the loop over the nodes of a block in
    [InsertObserverNodes]; the state is the stack of blocks and
    [values_to_observe]. *)
Definition observe_node (g : Graph) (observer_for_input : gset NodeId)
    (st : list BlockId * list ValueId) (n : NodeId)
  : list BlockId * list ValueId :=
  let '(blocks_to_visit, values_to_observe) := st in
  if negb (outputsNeedToBeObserved g n)
     || bool_decide (n ∈ observer_for_input)
  then st
  else
    let values_to_observe := values_to_observe ++ outputs (node g n) in
    let blocks_to_visit :=
      fold_left (λ stk subblock, subblock :: stk) (blocks (node g n))
                blocks_to_visit in
    (blocks_to_visit, values_to_observe).

(** The while loop of [InsertObserverNodes].  [fuel] bounds the number
    of times its condition is tested; [None] means the bound was too
    small. *)
Fixpoint observe_blocks (fuel : nat) (g : Graph)
    (observer_for_input : gset NodeId)
    (blocks_to_visit : list BlockId) (values_to_observe : list ValueId)
  : option (list ValueId) :=
  match fuel with
  | 0 => None
  | S fuel =>
      match blocks_to_visit with
      | [] => Some values_to_observe
      | b :: blocks_to_visit =>
          let '(blocks_to_visit, values_to_observe) :=
            fold_left (observe_node g observer_for_input) (block_nodes g b)
                      (blocks_to_visit, values_to_observe) in
          observe_blocks fuel g observer_for_input blocks_to_visit
                         values_to_observe
      end
  end.

(** The last loop of [InsertObserverNodes]. *)
Definition observe_value (observer_node : Template) (g : Graph) (v : ValueId)
  : Graph :=
  if isSubtypeOfTensor (type_ (value g v)) then
    let '(clone_observer_node, g') :=
      addObserverFor v observer_node (node_ (value g v)) g in
    insertAfter clone_observer_node (node_ (value g v)) g'
  else g.

Definition InsertObserverNodes (fuel : nat) (g : Graph)
    (observer_node : Template) (num_activation_inputs : nat)
  : option (Graph * Outcome) :=
  if decide (num_activation_inputs ≤ length (graph_inputs g)) then
    let insert_node := first_node g in
    let '(g1, observer_for_input) :=
      fold_left (observe_input observer_node insert_node)
                (seq 0 num_activation_inputs) (g, ∅) in
    match observe_blocks fuel g1 observer_for_input [top_block] [] with
    | None => None
    | Some values_to_observe =>
        Some (fold_left (observe_value observer_node) values_to_observe g1,
              Returned)
    end
  else Some (g, Raised AssertionFailure).

(** The bookkeeping of [InsertQuantDequantNodes]. *)
Record Marks := mkMarks {
  quantInputs : list (ValueId * NodeId);
  quantOutputs : list ValueId;
  valueLookup : gset ValueId
}.

(** The body of the loop over the inputs of node [n]. *)
Definition mark_input (g : Graph) (n : NodeId) (m : Marks) (v : ValueId)
  : Marks :=
  if negb (isSubtypeOfTensor (type_ (value g v))) then m
  else if checkIfNodeQuantizable g (node_ (value g v)) then
    if bool_decide (v ∈ valueLookup m) then m
    else mkMarks (quantInputs m) (quantOutputs m ++ [v])
                 ({[v]} ∪ valueLookup m)
  else if checkIfNodeQuantizable g n then
    mkMarks (quantInputs m ++ [(v, n)]) (quantOutputs m) (valueLookup m)
  else m.

(** The body of the loop over the nodes of a block. *)
Definition mark_node (g : Graph) (st : list BlockId * Marks) (n : NodeId)
  : list BlockId * Marks :=
  let '(blocks_to_visit, m) := st in
  let blocks_to_visit :=
    fold_left (λ stk subblock, subblock :: stk) (blocks (node g n))
              blocks_to_visit in
  (blocks_to_visit, fold_left (mark_input g n) (inputs (node g n)) m).

(** The body of the loop over the outputs of a block. *)
Definition mark_block_output (g : Graph) (m : Marks) (v : ValueId) : Marks :=
  if checkIfNodeQuantizable g (node_ (value g v))
     && isSubtypeOfTensor (type_ (value g v))
  then mkMarks (quantInputs m) (quantOutputs m ++ [v]) (valueLookup m)
  else m.

(** The while loop of [InsertQuantDequantNodes], with [fuel] as in
    [observe_blocks]. *)
Fixpoint mark_blocks (fuel : nat) (g : Graph) (blocks_to_visit : list BlockId)
    (m : Marks) : option Marks :=
  match fuel with
  | 0 => None
  | S fuel =>
      match blocks_to_visit with
      | [] => Some m
      | b :: blocks_to_visit =>
          let '(blocks_to_visit, m) :=
            fold_left (mark_node g) (block_nodes g b) (blocks_to_visit, m) in
          let m := fold_left (mark_block_output g) (block_outputs g b) m in
          mark_blocks fuel g blocks_to_visit m
      end
  end.

Definition InsertQuantDequantNodes (fuel : nat) (g : Graph) : option Graph :=
  match mark_blocks fuel g [top_block] (mkMarks [] [] ∅) with
  | None => None
  | Some m =>
      (* the pairs for values output from quantizable nodes *)
      let g := fold_left (λ g ele, addQuantDeQuantNodes ele g)
                         (quantOutputs m) g in
      (* the pairs for values input to quantizable nodes *)
      Some (fold_left (λ g ele, addQuantDeQuantNodesForInput ele.1 ele.2 g)
                      (quantInputs m) g)
  end.

Definition QuantLinting (g : Graph) : Graph * Outcome :=
  (g, Raised (RuntimeError "Pass not implemented yet!")).

Definition FoldQuantNodesIntoInputsOutputs (g : Graph) : Graph * Outcome :=
  (g, Raised (RuntimeError "Pass not implemented yet!")).

End Quantization.

(** ** Arena lemmas *)

Section arena.
Context {A : Type}.
Implicit Types (f : A → A) (l k : list A).

Lemma alter_app_at0 f l k :
  alter f (length l) (l ++ k) = l ++ alter f 0 k.
Proof. rewrite <-(Nat.add_0_r (length l)) at 1. apply alter_app_r. Qed.

Lemma lookup_total_app_at `{!Inhabited A} l k i :
  (l ++ k) !!! (length l + i) = k !!! i.
Proof. rewrite lookup_total_app_r; [|lia]. f_equal. lia. Qed.

Lemma lookup_total_app_at0 `{!Inhabited A} l k :
  (l ++ k) !!! (length l) = k !!! 0.
Proof. rewrite <-(Nat.add_0_r (length l)) at 1. apply lookup_total_app_at. Qed.

(** The same four facts when the old part of the arena went through
    a map. *)
Lemma alter_fmap_app_at {B} f (h : B → A) (l : list B) k i :
  alter f (length l + i) ((h <$> l) ++ k) = (h <$> l) ++ alter f i k.
Proof. rewrite <-(length_fmap h l). apply alter_app_r. Qed.

Lemma alter_fmap_app_at0 {B} f (h : B → A) (l : list B) k :
  alter f (length l) ((h <$> l) ++ k) = (h <$> l) ++ alter f 0 k.
Proof. rewrite <-(length_fmap h l). apply alter_app_at0. Qed.

Lemma lookup_total_fmap_app_at {B} `{!Inhabited A} (h : B → A)
    (l : list B) k i :
  ((h <$> l) ++ k) !!! (length l + i) = k !!! i.
Proof. rewrite <-(length_fmap h l). apply lookup_total_app_at. Qed.

Lemma lookup_total_fmap_app_at0 {B} `{!Inhabited A} (h : B → A)
    (l : list B) k :
  ((h <$> l) ++ k) !!! (length l) = k !!! 0.
Proof. rewrite <-(length_fmap h l). apply lookup_total_app_at0. Qed.

(** And when one object of the old part was updated. *)
Lemma alter_alter_app_at f (h : A → A) j l k i :
  alter f (length l + i) (alter h j l ++ k) = alter h j l ++ alter f i k.
Proof. rewrite <-(length_alter h l j). apply alter_app_r. Qed.

Lemma alter_alter_app_at0 f (h : A → A) j l k :
  alter f (length l) (alter h j l ++ k) = alter h j l ++ alter f 0 k.
Proof. rewrite <-(length_alter h l j). apply alter_app_at0. Qed.

Lemma lookup_total_alter_app_at `{!Inhabited A} (h : A → A) j l k i :
  (alter h j l ++ k) !!! (length l + i) = k !!! i.
Proof. rewrite <-(length_alter h l j). apply lookup_total_app_at. Qed.

Lemma lookup_total_alter_app_at0 `{!Inhabited A} (h : A → A) j l k :
  (alter h j l ++ k) !!! (length l) = k !!! 0.
Proof. rewrite <-(length_alter h l j). apply lookup_total_app_at0. Qed.
End arena.

Module Facts.
Import IR Quantization.

Ltac arena_step :=
  first
    [ rewrite alter_app_at0
    | rewrite alter_app_r
    | rewrite lookup_total_app_at0
    | rewrite lookup_total_app_at
    | rewrite alter_fmap_app_at0
    | rewrite alter_fmap_app_at
    | rewrite lookup_total_fmap_app_at0
    | rewrite lookup_total_fmap_app_at
    | rewrite alter_alter_app_at0
    | rewrite alter_alter_app_at
    | rewrite lookup_total_alter_app_at0
    | rewrite lookup_total_alter_app_at
    | rewrite lookup_total_app_l
        by (rewrite ?length_app, ?length_fmap, ?length_alter; cbn [length]; lia)
    | rewrite alter_app_l
        by (rewrite ?length_app, ?length_fmap, ?length_alter; cbn [length]; lia) ].

Ltac graph_simpl :=
  repeat (progress (
    cbv beta iota zeta;
    cbn [g_nodes g_values g_blocks current_scope_ insert_before_
         kind schema inputs outputs blocks owning_block scope attr
         type_ unique_name_ node_ nodes input_ output_ fst snd
         with_inputs with_outputs with_owning_block with_scope with_attr
         with_type with_name with_nodes
         app length lookup_total list_lookup_total alter list_alter
         fmap list_fmap constant_type];
    rewrite ?fmap_app;
    rewrite <- ?app_assoc;
    rewrite ?length_app, ?length_fmap, ?length_alter;
    repeat arena_step)).

Ltac graph_unfold :=
  unfold setInsertPoint, setType, setUniqueName, setScope, addInput,
    replaceInputWith, replaceAllUsesWith, insertNode, output, uniqueName,
    upd_node, upd_value, upd_block, map_nodes, node, value, block in *.

(** Where [x->insertBefore(n)] puts [x] in the list of block [b]. *)
Definition place_before (out x n : NodeId) (l : list NodeId) : list NodeId :=
  if decide (n = out) then l ++ [x] else list_insert_before x n l.

(** The block lists after [x] joined the block of a node whose owner
    is [ob]. *)
Definition blocks_with (ob : option BlockId) (f : list NodeId → list NodeId)
    (bs : list Block) : list Block :=
  match ob with
  | Some b => alter (with_nodes f) b bs
  | None => bs
  end.

Lemma create1_mk k ns vs bs sc ip :
  create k 1 (mkGraph ns vs bs sc ip) =
  (length ns,
   mkGraph (ns ++ [mkNode k "" [] [length vs] [] None sc None])
           (vs ++ [mkValue TensorType "" (length ns)]) bs sc ip).
Proof.
  unfold create, addOutputs, addOutput, upd_node. graph_simpl. done.
Qed.

Lemma createQuantDeQuantNodes_eq v n g :
  v < length (g_values g) → n < length (g_nodes g) →
  createQuantDeQuantNodes v n g =
  ((length (g_nodes g), length (g_nodes g) + 1),
   mkGraph
     (g_nodes g ++
        [mkNode "aten::quantize_linear" "" [] [length (g_values g)] [] None
                (scope (node g n)) None;
         mkNode "aten::dequantize" "" [] [length (g_values g) + 1] [] None
                (scope (node g n)) None])
     (g_values g ++
        [mkValue TensorType (uniqueName g v +:+ ".quant") (length (g_nodes g));
         mkValue TensorType (uniqueName g v +:+ ".dequant")
                 (length (g_nodes g) + 1)])
     (g_blocks g) (current_scope_ g) (insert_before_ g)).
Proof.
  destruct g as [ns vs bs sc ip]. graph_simpl. intros Hv Hn.
  unfold createQuantDeQuantNodes.
  rewrite create1_mk. graph_unfold. graph_simpl.
  rewrite create1_mk. graph_simpl. done.
Qed.

(** [insertConstant] with the cursor on a node [q] of the graph. *)
Lemma insertConstant_mk c ns vs bs sc q :
  q < length ns →
  insertConstant c (mkGraph ns vs bs sc q) =
  (length vs,
   mkGraph
     (ns ++ [mkNode "prim::Constant" "" [] [length vs] []
                    (owning_block (ns !!! q)) sc (Some c)])
     (vs ++ [mkValue (constant_type c) "" (length ns)])
     (blocks_with (owning_block (ns !!! q))
        (match owning_block (ns !!! q) with
         | Some b => place_before (output_ (bs !!! b)) (length ns) q
         | None => id
         end) bs)
     sc q).
Proof.
  intros Hq. unfold insertConstant. rewrite create1_mk.
  graph_unfold. graph_simpl. unfold insertBefore. graph_unfold. graph_simpl.
  destruct (owning_block (ns !!! q)) as [b|] eqn:Hb; graph_simpl; done.
Qed.

Lemma output_alter_with_nodes f b (bs : list Block) b' :
  output_ (alter (with_nodes f) b bs !!! b') = output_ (bs !!! b').
Proof.
  destruct (decide (b = b')) as [<-|Hne].
  - destruct (decide (b < length bs)) as [Hlt|Hge].
    + by rewrite list_lookup_total_alter_eq.
    + rewrite list_lookup_total_alter. case_decide; [lia|done].
  - by rewrite list_lookup_total_alter_ne.
Qed.

Lemma lookup_total_fmap_node (h : Node → Node) (ns : list Node) m :
  m < length ns → (h <$> ns) !!! m = h (ns !!! m).
Proof. apply list_lookup_total_fmap. Qed.

Lemma alter_with_inputs2 f1 f2 i (ns : list Node) :
  alter (with_inputs f1) i (alter (with_inputs f2) i ns)
  = alter (with_inputs (f1 ∘ f2)) i ns.
Proof. rewrite list_alter_alter_eq. by apply list_alter_ext. Qed.

Lemma alter_with_nodes2 f1 f2 b (bs : list Block) :
  alter (with_nodes f1) b (alter (with_nodes f2) b bs)
  = alter (with_nodes (f1 ∘ f2)) b bs.
Proof. rewrite list_alter_alter_eq. by apply list_alter_ext. Qed.

Lemma alter_with_inputs_ext f1 f2 i (ns : list Node) :
  (∀ l, f1 l = f2 l) →
  alter (with_inputs f1) i ns = alter (with_inputs f2) i ns.
Proof.
  intros Hf. apply list_alter_ext; [|done]. intros nd _.
  unfold with_inputs. by rewrite Hf.
Qed.

Lemma insertQuantNodeParams_mk quant qp ns vs bs sc ip b :
  quant < length ns →
  owning_block (ns !!! quant) = Some b →
  insertQuantNodeParams quant qp (mkGraph ns vs bs sc ip) =
  mkGraph
    (alter (with_inputs (λ l, l ++ [length vs; length vs + 1])) quant ns ++
       [mkNode "prim::Constant" "" [] [length vs] [] (Some b) sc
               (Some (Double qp.1));
        mkNode "prim::Constant" "" [] [length vs + 1] [] (Some b) sc
               (Some (Int qp.2))])
    (vs ++ [mkValue FloatType "" (length ns);
            mkValue IntType "" (length ns + 1)])
    (alter (with_nodes
              (place_before (output_ (bs !!! b)) (length ns + 1) quant
               ∘ place_before (output_ (bs !!! b)) (length ns) quant)) b bs)
    sc ip.
Proof.
  intros Hq Hb. unfold insertQuantNodeParams, setInsertPoint.
  cbn [g_nodes g_values g_blocks current_scope_ insert_before_].
  rewrite insertConstant_mk by done. rewrite Hb. cbn [blocks_with].
  cbv beta iota zeta.
  rewrite insertConstant_mk by (rewrite length_app; lia).
  rewrite lookup_total_app_l by done. rewrite Hb. cbn [blocks_with].
  rewrite output_alter_with_nodes, alter_with_nodes2.
  graph_unfold. graph_simpl.
  rewrite alter_with_inputs2. do 2 f_equal.
  apply alter_with_inputs_ext. intros l. simpl. by rewrite <-app_assoc.
Qed.

(** The node list of the block after an output-side rewrite. *)
Definition after_output_rewrite (out N n : NodeId) : list NodeId → list NodeId :=
  place_before out (N + 3) N ∘ place_before out (N + 2) N
  ∘ list_insert_after (N + 1) N ∘ list_insert_after N n.

Lemma addQuantDeQuantNodes_eq v g b :
  let N := length (g_nodes g) in
  let V := length (g_values g) in
  let n := node_ (value g v) in
  v < V → n < N → owning_block (node g n) = Some b →
  addQuantDeQuantNodes v g =
  mkGraph
    ((with_inputs (fmap (subst v (V + 1))) <$> g_nodes g) ++
       [mkNode "aten::quantize_linear" "" [v; V + 2; V + 3] [V] [] (Some b)
               (scope (node g n)) None;
        mkNode "aten::dequantize" "" [V] [V + 1] [] (Some b)
               (scope (node g n)) None;
        mkNode "prim::Constant" "" [] [V + 2] [] (Some b) (current_scope_ g)
               (Some (Double (Qmake 1 1)));
        mkNode "prim::Constant" "" [] [V + 3] [] (Some b) (current_scope_ g)
               (Some (Int 0))])
    (g_values g ++
       [mkValue TensorType (uniqueName g v +:+ ".quant") N;
        mkValue TensorType (uniqueName g v +:+ ".dequant") (N + 1);
        mkValue FloatType "" (N + 2);
        mkValue IntType "" (N + 3)])
    (alter (with_nodes (after_output_rewrite (output_ (block g b)) N n)) b
           (g_blocks g))
    (current_scope_ g) (insert_before_ g).
Proof.
  intros N V n Hv Hn Hb. subst N V. unfold addQuantDeQuantNodes. fold n.
  rewrite createQuantDeQuantNodes_eq by done.
  destruct g as [ns vs bs sc ip]. graph_unfold.
  cbn [g_nodes g_values g_blocks current_scope_ insert_before_] in *.
  graph_simpl.
  unfold insertAfter. graph_unfold. graph_simpl. rewrite Hb. graph_simpl.
  rewrite insertQuantNodeParams_mk with (b := b);
    [|rewrite length_app, length_fmap; cbn [length]; lia|by graph_simpl].
  graph_simpl. rewrite output_alter_with_nodes, output_alter_with_nodes.
  rewrite !alter_with_nodes2. simpl.
  rewrite <-!Nat.add_assoc. simpl. done.
Qed.

(** The node list of the block after an input-side rewrite. *)
Definition after_input_rewrite (out N n : NodeId) : list NodeId → list NodeId :=
  place_before out (N + 3) N ∘ place_before out (N + 2) N
  ∘ place_before out N (N + 1) ∘ place_before out (N + 1) n.

Lemma addQuantDeQuantNodesForInput_eq v n g b :
  let N := length (g_nodes g) in
  let V := length (g_values g) in
  v < V → n < N → owning_block (node g n) = Some b →
  addQuantDeQuantNodesForInput v n g =
  mkGraph
    (alter (with_inputs (fmap (subst v (V + 1)))) n (g_nodes g) ++
       [mkNode "aten::quantize_linear" "" [v; V + 2; V + 3] [V] [] (Some b)
               (scope (node g n)) None;
        mkNode "aten::dequantize" "" [V] [V + 1] [] (Some b)
               (scope (node g n)) None;
        mkNode "prim::Constant" "" [] [V + 2] [] (Some b) (current_scope_ g)
               (Some (Double (Qmake 1 1)));
        mkNode "prim::Constant" "" [] [V + 3] [] (Some b) (current_scope_ g)
               (Some (Int 0))])
    (g_values g ++
       [mkValue TensorType (uniqueName g v +:+ ".quant") N;
        mkValue TensorType (uniqueName g v +:+ ".dequant") (N + 1);
        mkValue FloatType "" (N + 2);
        mkValue IntType "" (N + 3)])
    (alter (with_nodes (after_input_rewrite (output_ (block g b)) N n)) b
           (g_blocks g))
    (current_scope_ g) (insert_before_ g).
Proof.
  intros N V Hv Hn Hb. subst N V. unfold addQuantDeQuantNodesForInput.
  rewrite createQuantDeQuantNodes_eq by done.
  destruct g as [ns vs bs sc ip]. graph_unfold.
  cbn [g_nodes g_values g_blocks current_scope_ insert_before_] in *.
  graph_simpl.
  unfold insertBefore. graph_unfold. graph_simpl. rewrite Hb. graph_simpl.
  rewrite output_alter_with_nodes.
  rewrite insertQuantNodeParams_mk with (b := b);
    [|rewrite length_app, length_alter; cbn [length]; lia|by graph_simpl].
  graph_simpl. rewrite !output_alter_with_nodes.
  rewrite !alter_with_nodes2. simpl.
  rewrite <-!Nat.add_assoc. simpl. done.
Qed.

(** *** Positions in a node list *)

Lemma list_insert_after_middle x n pre post :
  n ∉ pre →
  list_insert_after x n (pre ++ n :: post) = pre ++ n :: x :: post.
Proof.
  induction pre as [|y pre IH]; intros Hn; simpl.
  - by rewrite decide_True.
  - apply not_elem_of_cons in Hn as [Hy Hpre].
    rewrite decide_False by done. f_equal. by apply IH.
Qed.

Lemma list_insert_before_middle x n pre post :
  n ∉ pre →
  list_insert_before x n (pre ++ n :: post) = pre ++ x :: n :: post.
Proof.
  induction pre as [|y pre IH]; intros Hn; simpl.
  - by rewrite decide_True.
  - apply not_elem_of_cons in Hn as [Hy Hpre].
    rewrite decide_False by done. f_equal. by apply IH.
Qed.

Lemma fresh_not_in (N : nat) k (l : list nat) :
  Forall (λ m, m < N) l → N + k ∉ l.
Proof.
  intros Hl Hin. rewrite Forall_forall in Hl. apply Hl in Hin. lia.
Qed.

Lemma after_output_rewrite_middle out N n pre post :
  n ∉ pre → Forall (λ m, m < N) pre → n < N → out < N →
  after_output_rewrite out N n (pre ++ n :: post)
  = pre ++ n :: (N + 2) :: (N + 3) :: N :: (N + 1) :: post.
Proof.
  intros Hn Hpre HnN Hout.
  assert (HN : N ∉ pre ++ [n]).
  { rewrite elem_of_app, list_elem_of_singleton. intros [Hin| ->]; [|lia].
    apply (fresh_not_in N 0 pre) in Hpre. by rewrite Nat.add_0_r in Hpre. }
  unfold after_output_rewrite, place_before, compose.
  rewrite !decide_False by lia.
  rewrite list_insert_after_middle by done.
  rewrite (cons_middle n pre), app_assoc.
  rewrite list_insert_after_middle by done.
  rewrite list_insert_before_middle by done.
  rewrite (cons_middle (N + 2) (pre ++ [n])), app_assoc.
  rewrite list_insert_before_middle.
  - by rewrite <-!app_assoc.
  - rewrite elem_of_app, list_elem_of_singleton. intros [Hin|Heq]; [done|lia].
Qed.

Lemma after_input_rewrite_middle out N n pre post :
  n ∉ pre → Forall (λ m, m < N) pre → n < N → out < N → n ≠ out →
  after_input_rewrite out N n (pre ++ n :: post)
  = pre ++ (N + 2) :: (N + 3) :: N :: (N + 1) :: n :: post.
Proof.
  intros Hn Hpre HnN Hout Hne.
  assert (HN : N ∉ pre).
  { apply (fresh_not_in N 0 pre) in Hpre. by rewrite Nat.add_0_r in Hpre. }
  unfold after_input_rewrite, place_before, compose.
  rewrite !decide_False by lia.
  rewrite list_insert_before_middle by done.
  rewrite list_insert_before_middle by by apply fresh_not_in.
  rewrite list_insert_before_middle by done.
  rewrite (cons_middle (N + 2) pre), app_assoc.
  rewrite list_insert_before_middle.
  - by rewrite <-!app_assoc.
  - rewrite elem_of_app, list_elem_of_singleton. intros [Hin|Heq]; [done|lia].
Qed.

Lemma block_nodes_alter f b bs vs ns sc ip :
  b < length bs →
  block_nodes (mkGraph ns vs (alter (with_nodes f) b bs) sc ip) b
  = f (nodes (bs !!! b)).
Proof.
  intros Hb. unfold block_nodes, block. simpl.
  by rewrite list_lookup_total_alter_eq.
Qed.

End Facts.

(** ** The rewrites of one value *)

Module Rewrites.
Import IR Quantization Facts.

(** Node [n] of graph [g] stands in block [b], between [pre] and
    [post]; every handle involved denotes an object of [g]. *)
Definition sits_at (g : Graph) (n : NodeId) (b : BlockId)
    (pre post : list NodeId) : Prop :=
  n < length (g_nodes g) ∧
  owning_block (node g n) = Some b ∧
  b < length (g_blocks g) ∧
  output_ (block g b) < length (g_nodes g) ∧
  n ≠ output_ (block g b) ∧
  block_nodes g b = pre ++ n :: post ∧
  (n ∉ pre) ∧
  Forall (λ m, m < length (g_nodes g)) pre.

(** Node [a] produces a value that node [c] reads. *)
Definition feeds (g : Graph) (a c : NodeId) : Prop :=
  ∃ x, x ∈ outputs (node g a) ∧ x ∈ inputs (node g c).

Lemma subst_fresh_not_in (v w : nat) (l : list nat) :
  w ≠ v → v ∉ (subst v w <$> l).
Proof.
  intros Hne [x [Hx _]]%list_elem_of_fmap. unfold subst in Hx.
  case_decide; congruence.
Qed.

Lemma subst_absent (v w : nat) (l : list nat) :
  v ∉ l → subst v w <$> l = l.
Proof.
  induction l as [|x l IH]; intros Hv; [done|].
  apply not_elem_of_cons in Hv as [Hx Hl]. simpl. unfold subst at 1.
  rewrite decide_False by done. f_equal. by apply IH.
Qed.

(** A relu whose output [v] is read by three nodes:
    [x -> relu -> v -> {neg, neg, neg}]. *)
Definition fanout3 : Graph :=
  mkGraph
    [ mkNode "prim::Param" "" [] [0] [] (Some 0) "" None;
      mkNode "prim::Return" "" [2; 3; 4] [] [] (Some 0) "" None;
      mkNode "aten::relu" "aten::relu(Tensor self) -> Tensor"
             [0] [1] [] (Some 0) "" None;
      mkNode "aten::neg" "aten::neg(Tensor self) -> Tensor"
             [1] [2] [] (Some 0) "" None;
      mkNode "aten::neg" "aten::neg(Tensor self) -> Tensor"
             [1] [3] [] (Some 0) "" None;
      mkNode "aten::neg" "aten::neg(Tensor self) -> Tensor"
             [1] [4] [] (Some 0) "" None ]
    [ mkValue TensorType "x" 0; mkValue TensorType "v" 2;
      mkValue TensorType "a" 3; mkValue TensorType "b" 4;
      mkValue TensorType "c" 5 ]
    [ mkBlock [2; 3; 4; 5] 0 1 None ]
    "" 1.

Lemma fanout3_sits_at : sits_at fanout3 2 0 [] [3; 4; 5].
Proof.
  unfold sits_at. simpl. repeat split; try lia; try done.
  apply not_elem_of_nil.
Qed.

(** Node [c] comes right after node [a] in block [b]. *)
Definition follows (g : Graph) (b : BlockId) (a c : NodeId) : Prop :=
  ∃ pre post, block_nodes g b = pre ++ a :: c :: post.

(** C2.  The output-side rewrite of a value [v] whose producer [n]
    stands in a block: [addQuantDeQuantNodes] creates a quantize node, a
    dequantize node and two constants, 1.0 and 0.  In the resulting
    block the two constants come right after [n], the quantize node
    right after the constants and the dequantize node right after the
    quantize node; the rest of the block keeps its order.  Every
    consumer that was there reads the output of the dequantize node
    instead of [v]; the quantize node reads [v] and the two constants;
    the dequantize node reads the output of the quantize node. *)
Theorem output_side_rewrite g v b pre post :
  let N := length (g_nodes g) in
  let n := node_ (value g v) in
  v < length (g_values g) → sits_at g n b pre post →
  let g' := addQuantDeQuantNodes v g in
  length (g_nodes g') = N + 4 ∧
  kind (node g' N) = "aten::quantize_linear" ∧
  kind (node g' (N + 1)) = "aten::dequantize" ∧
  block_nodes g' b = pre ++ n :: (N + 2) :: (N + 3) :: N :: (N + 1) :: post ∧
  (∀ m, m < N →
        inputs (node g' m) = subst v (output g' (N + 1)) <$> inputs (node g m)) ∧
  inputs (node g' N) = [v; output g' (N + 2); output g' (N + 3)] ∧
  kind (node g' (N + 2)) = "prim::Constant" ∧
  attr (node g' (N + 2)) = Some (Double (Qmake 1 1)) ∧
  kind (node g' (N + 3)) = "prim::Constant" ∧
  attr (node g' (N + 3)) = Some (Int 0) ∧
  inputs (node g' (N + 1)) = [output g' N].
Proof.
  intros N n Hv (Hn & Hown & Hb & Hout & Hne & Hlist & Hpre & Hvalid) g'.
  assert (HN : N ∉ pre ++ [n]).
  { rewrite elem_of_app, list_elem_of_singleton.
    intros [Hin|Heq]; [|unfold N in *; lia].
    apply (fresh_not_in _ 0 pre) in Hvalid. by rewrite Nat.add_0_r in Hvalid. }
  split_and!; try done; subst g';
    rewrite (addQuantDeQuantNodes_eq v g b) by done;
    unfold node, output, node; subst N n; graph_simpl; try done.
  - rewrite block_nodes_alter by done.
    unfold block_nodes, block in Hlist. rewrite Hlist.
    by rewrite after_output_rewrite_middle.
  - intros m Hm.
    rewrite lookup_total_app_l by (rewrite length_fmap; done).
    by rewrite lookup_total_fmap_node.
Qed.

Lemma output_side_rewrite_witness :
  let g' := addQuantDeQuantNodes 1 fanout3 in
  block_nodes g' 0 = [2; 8; 9; 6; 7; 3; 4; 5] ∧
  inputs (node g' 6) = [1; output g' 8; output g' 9] ∧
  inputs (node g' 3) = subst 1 (output g' 7) <$> [1].
Proof.
  intros g'.
  destruct (output_side_rewrite fanout3 1 0 [] [3; 4; 5])
    as (_ & _ & _ & Hblock & Hold & Hq & _).
  - simpl. lia.
  - exact fanout3_sits_at.
  - split; [exact Hblock|]. split; [exact Hq|].
    apply (Hold 3). simpl. lia.
Defined.

(** In [fanout3] the relu (node 2) produces [v].  After the output-side
    rewrite of [v] no quantize node comes right after the relu: the node
    that follows it is the constant 1.0. *)
Lemma quantize_not_right_after_producer :
  let g' := addQuantDeQuantNodes 1 fanout3 in
  node_ (value fanout3 1) = 2 ∧
  ¬ ∃ q, kind (node g' q) = "aten::quantize_linear" ∧ follows g' 0 2 q.
Proof.
  intros g'. split; [reflexivity|].
  assert (Hnodes : block_nodes g' 0 = [2; 8; 9; 6; 7; 3; 4; 5])
    by (by vm_compute).
  assert (Hconst : kind (node g' 8) = "prim::Constant") by (by vm_compute).
  clearbody g'.
  intros (q & Hkind & pre & post & Hblock).
  rewrite Hnodes in Hblock.
  destruct pre as [|x pre].
  - injection Hblock as <- _.
    rewrite Hconst in Hkind. discriminate Hkind.
  - injection Hblock as _ Hrest.
    assert (Hin : 2 ∈ [8; 9; 6; 7; 3; 4; 5]).
    { rewrite Hrest. apply elem_of_app. right. left. }
    revert Hin. apply (bool_decide_unpack _). by vm_compute.
Qed.

Lemma filter_none {A} (P : A → Prop) `{!∀ x, Decision (P x)} (l : list A) :
  (∀ x, x ∈ l → ¬ P x) → filter P l = [].
Proof.
  induction l as [|x l IH]; intros Hl; [done|].
  rewrite filter_cons_False by (apply Hl; left).
  apply IH. intros y Hy. apply Hl. by right.
Qed.

Lemma seq_four (N : nat) : seq N 4 = [N; N + 1; N + 2; N + 3].
Proof. simpl. repeat f_equal; lia. Qed.

(** The order in which the four nodes of a rewrite depend on each
    other: the constants first, then the quantize node, then the
    dequantize node. *)
Definition new_node_rank (N a : NodeId) : nat :=
  if decide (a = N) then 1 else if decide (a = N + 1) then 2 else 0.

(** C9.  After the output-side rewrite of [v], the first input of the
    new quantize node is [v] itself and not the output of the
    dequantize node; the quantize node is the only consumer of [v]; and
    among the new nodes a value only flows from the constants to the
    quantize node and from the quantize node to the dequantize node, so
    they form no cycle. *)
Theorem quantize_reads_original_value g v b :
  let N := length (g_nodes g) in
  let n := node_ (value g v) in
  v < length (g_values g) → n < N → owning_block (node g n) = Some b →
  let g' := addQuantDeQuantNodes v g in
  inputs (node g' N) !! 0 = Some v ∧
  output g' (N + 1) ≠ v ∧
  (output g' (N + 1) ∉ inputs (node g' N)) ∧
  consumers g' v = [N] ∧
  (∀ a c, N ≤ a < N + 4 → N ≤ c < N + 4 → feeds g' a c →
          new_node_rank N a < new_node_rank N c).
Proof.
  intros N n Hv Hn Hown g'. subst g'.
  unfold feeds, consumers, output, node.
  rewrite (addQuantDeQuantNodes_eq v g b) by done. subst N n.
  graph_simpl. rewrite <-?Nat.add_assoc. simpl Nat.add.
  rewrite seq_app, Nat.add_0_l, seq_four.
  split_and!.
  - done.
  - lia.
  - rewrite !elem_of_cons, elem_of_nil. lia.
  - rewrite filter_app, filter_none.
    + rewrite filter_cons_True by (graph_simpl; left).
      rewrite !filter_cons_False; [done|graph_simpl..].
      * apply not_elem_of_nil.
      * apply not_elem_of_nil.
      * rewrite list_elem_of_singleton. lia.
    + intros m Hm%elem_of_seq.
      rewrite lookup_total_app_l by (rewrite length_fmap; lia).
      rewrite lookup_total_fmap_node by lia. simpl.
      apply subst_fresh_not_in. lia.
  - intros a c Ha Hc (x & Hout & Hin). unfold new_node_rank.
    set (N := length (g_nodes g)) in *.
    assert (a = N ∨ a = N + 1 ∨ a = N + 2 ∨ a = N + 3) as Ha' by lia.
    assert (c = N ∨ c = N + 1 ∨ c = N + 2 ∨ c = N + 3) as Hc' by lia.
    destruct Ha' as [->|[->|[->| ->]]], Hc' as [->|[->|[->| ->]]];
      subst N; revert Hout Hin; graph_simpl;
      rewrite ?elem_of_cons, ?elem_of_nil; intros Hout Hin;
      repeat case_decide; lia.
Qed.

Lemma quantize_reads_original_value_witness :
  let g' := addQuantDeQuantNodes 1 fanout3 in
  inputs (node g' 6) !! 0 = Some 1 ∧ consumers g' 1 = [6].
Proof.
  intros g'.
  destruct (quantize_reads_original_value fanout3 1 0)
    as (Hfirst & _ & _ & Hsole & _).
  - simpl. lia.
  - simpl. lia.
  - reflexivity.
  - split; [exact Hfirst|exact Hsole].
Defined.

(** [x -> N1 (neg) -> v -> {N4 (relu), N5 (neg)}]: the producer of [v]
    is not quantizable, one consumer is and the other is not.  N1, N4
    and N5 are the nodes 2, 3 and 4; [v] is the value 1. *)
Definition mixed : Graph :=
  mkGraph
    [ mkNode "prim::Param" "" [] [0] [] (Some 0) "" None;
      mkNode "prim::Return" "" [2; 3] [] [] (Some 0) "" None;
      mkNode "aten::neg" "aten::neg(Tensor self) -> Tensor"
             [0] [1] [] (Some 0) "" None;
      mkNode "aten::relu" "aten::relu(Tensor self) -> Tensor"
             [1] [2] [] (Some 0) "" None;
      mkNode "aten::neg" "aten::neg(Tensor self) -> Tensor"
             [1] [3] [] (Some 0) "" None ]
    [ mkValue TensorType "x" 0; mkValue TensorType "v" 2;
      mkValue TensorType "a" 3; mkValue TensorType "c" 4 ]
    [ mkBlock [2; 3; 4] 0 1 None ]
    "" 1.

Lemma mixed_sits_at : sits_at mixed 3 0 [2] [4].
Proof.
  unfold sits_at. simpl. split_and!; try lia; try done.
  - rewrite list_elem_of_singleton. lia.
  - repeat constructor.
Qed.

(** C3.  The input-side rewrite of the pair [(v, n)], for a node [n]
    that stands in a block: the dequantize node ends up right before
    [n] and the quantize node right before the dequantize node (the two
    constants before them); among the nodes that were there only [n]
    changes, and only in that its references to [v] become references
    to the output of the dequantize node.  In [mixed] the pass records
    the pair (v, N4): afterwards N4 reads the dequantize output and N5
    still reads [v]. *)
Theorem input_side_rewrite :
  (∀ g v n b pre post,
     let N := length (g_nodes g) in
     v < length (g_values g) → sits_at g n b pre post →
     let g' := addQuantDeQuantNodesForInput v n g in
     block_nodes g' b
       = pre ++ (N + 2) :: (N + 3) :: N :: (N + 1) :: n :: post ∧
     kind (node g' N) = "aten::quantize_linear" ∧
     kind (node g' (N + 1)) = "aten::dequantize" ∧
     node g' n = with_inputs (fmap (subst v (output g' (N + 1)))) (node g n) ∧
     (∀ m, m < N → m ≠ n → node g' m = node g m) ∧
     inputs (node g' N) = [v; output g' (N + 2); output g' (N + 3)] ∧
     inputs (node g' (N + 1)) = [output g' N]) ∧
  (quantInputs <$> mark_blocks 2 mixed [top_block] (mkMarks [] [] ∅)
     = Some [(1, 3)] ∧
   ∃ g', InsertQuantDequantNodes 2 mixed = Some g' ∧
         kind (node g' 9) = "aten::quantize_linear" ∧
         kind (node g' 10) = "aten::dequantize" ∧
         inputs (node g' 9) = [1; output g' 11; output g' 12] ∧
         inputs (node g' 10) = [output g' 9] ∧
         inputs (node g' 3) = [output g' 10] ∧
         inputs (node g' 4) = [1] ∧
         block_nodes g' 0 = [2; 11; 12; 9; 10; 3; 7; 8; 5; 6; 4]).
Proof.
  split.
  - intros g v n b pre post N Hv
      (Hn & Hown & Hb & Hout & Hne & Hlist & Hpre & Hvalid) g'.
    subst g'. rewrite (addQuantDeQuantNodesForInput_eq v n g b) by done.
    unfold node, output, node. subst N. graph_simpl.
    rewrite block_nodes_alter by done.
    unfold block_nodes, block in Hlist. rewrite Hlist.
    rewrite after_input_rewrite_middle by done.
    split_and!; try done.
    + by rewrite list_lookup_total_alter_eq.
    + intros m Hm Hmn.
      rewrite lookup_total_app_l by (rewrite length_alter; done).
      by rewrite list_lookup_total_alter_ne.
  - split; [by vm_compute|].
    eexists. split; [by vm_compute|]. by vm_compute.
Qed.

Lemma input_side_rewrite_witness :
  let g' := addQuantDeQuantNodesForInput 1 3 mixed in
  block_nodes g' 0 = [2; 7; 8; 5; 6; 3; 4] ∧
  node g' 4 = node mixed 4.
Proof.
  intros g'.
  destruct (proj1 input_side_rewrite mixed 1 3 0 [2] [4])
    as (Hblock & _ & _ & _ & Hother & _).
  - simpl. lia.
  - exact mixed_sits_at.
  - split; [exact Hblock|]. apply Hother; simpl; lia.
Defined.

End Rewrites.

(** ** The traversal of the blocks *)

Module Traversal.
Import IR Quantization.

(** The blocks nested in the nodes of block [b], in the order in which
    the loops over [b->nodes()] and [n->blocks()] meet them. *)
Definition sub_blocks (g : Graph) (b : BlockId) : list BlockId :=
  block_nodes g b ≫= λ n, blocks (node g n).

(** The sequence of blocks that a work-stack loop takes from its stack:
    the top block is taken, the blocks nested in its nodes are pushed
    one by one, and so on until the stack is empty. *)
Fixpoint visit_order (fuel : nat) (g : Graph) (stack : list BlockId)
  : option (list BlockId) :=
  match fuel with
  | 0 => None
  | S fuel =>
      match stack with
      | [] => Some []
      | b :: stack =>
          cons b <$> visit_order fuel g (reverse (sub_blocks g b) ++ stack)
      end
  end.

(** What [InsertQuantDequantNodes] does with the nodes and the outputs
    of one block. *)
Definition mark_block (g : Graph) (m : Marks) (b : BlockId) : Marks :=
  fold_left (mark_block_output g) (block_outputs g b)
    (fold_left (λ m n, fold_left (mark_input g n) (inputs (node g n)) m)
               (block_nodes g b) m).

(** The nodes whose outputs [InsertObserverNodes] records. *)
Definition observed_node (g : Graph) (s : gset NodeId) (n : NodeId) : Prop :=
  kind (node g n) ≠ "prim::Constant" ∧ n ∉ s.

#[global] Instance observed_node_dec g s n : Decision (observed_node g s n).
Proof. unfold observed_node. apply _. Defined.

(** What [InsertObserverNodes] records in one block. *)
Definition observed_in_block (g : Graph) (s : gset NodeId) (b : BlockId)
  : list ValueId :=
  filter (observed_node g s) (block_nodes g b) ≫= λ n, outputs (node g n).

Lemma push_all (l stk : list BlockId) :
  fold_left (λ stk subblock, subblock :: stk) l stk = reverse l ++ stk.
Proof.
  revert stk. induction l as [|x l IH]; intros stk; simpl; [done|].
  rewrite IH, reverse_cons, <-app_assoc. done.
Qed.

Lemma mark_nodes_fold g ns stk m :
  fold_left (mark_node g) ns (stk, m)
  = (reverse (ns ≫= λ n, blocks (node g n)) ++ stk,
     fold_left (λ m n, fold_left (mark_input g n) (inputs (node g n)) m) ns m).
Proof.
  revert stk m. induction ns as [|n ns IH]; intros stk m; simpl; [done|].
  rewrite push_all, IH. f_equal.
  rewrite reverse_app, <-app_assoc. done.
Qed.

Lemma mark_blocks_order fuel g stack m :
  mark_blocks fuel g stack m
  = (λ bs, fold_left (mark_block g) bs m) <$> visit_order fuel g stack.
Proof.
  revert stack m. induction fuel as [|fuel IH]; intros stack m; simpl; [done|].
  destruct stack as [|b stack]; simpl; [done|].
  rewrite mark_nodes_fold. rewrite IH. unfold sub_blocks.
  destruct (visit_order fuel g _); done.
Qed.

Lemma observe_nodes_fold g s ns stk acc :
  (∀ n, n ∈ ns → ¬ observed_node g s n → blocks (node g n) = []) →
  fold_left (observe_node g s) ns (stk, acc)
  = (reverse (ns ≫= λ n, blocks (node g n)) ++ stk,
     acc ++ (filter (observed_node g s) ns ≫= λ n, outputs (node g n))).
Proof.
  revert stk acc. induction ns as [|n ns IH]; intros stk acc Hskip; simpl.
  { by rewrite app_nil_r. }
  assert (Hrest : ∀ n', n' ∈ ns → ¬ observed_node g s n' →
                        blocks (node g n') = []).
  { intros n' Hn'. apply Hskip. by right. }
  unfold outputsNeedToBeObserved.
  destruct (decide (observed_node g s n)) as [[Hk Hs]|Hno].
  - rewrite bool_decide_eq_false_2 by done.
    rewrite (bool_decide_eq_false_2 (n ∈ s)) by done. simpl.
    rewrite push_all, IH by done.
    rewrite filter_cons_True by done. simpl.
    rewrite reverse_app, <-!app_assoc. done.
  - rewrite filter_cons_False by done.
    rewrite (Hskip n) by (done || left). simpl.
    assert (negb (negb (bool_decide (kind (node g n) = "prim::Constant")))
            || bool_decide (n ∈ s) = true) as ->.
    { rewrite negb_involutive. apply orb_true_iff.
      rewrite !bool_decide_eq_true.
      destruct (decide (kind (node g n) = "prim::Constant")); [by left|].
      destruct (decide (n ∈ s)); [by right|].
      exfalso. apply Hno. done. }
    by apply IH.
Qed.

Lemma observe_blocks_order fuel g s stack acc :
  (∀ n, ¬ observed_node g s n → blocks (node g n) = []) →
  observe_blocks fuel g s stack acc
  = (λ bs, acc ++ (bs ≫= observed_in_block g s))
    <$> visit_order fuel g stack.
Proof.
  intros Hskip.
  revert stack acc. induction fuel as [|fuel IH]; intros stack acc; simpl;
    [done|].
  destruct stack as [|b stack]; simpl; [by rewrite app_nil_r|].
  rewrite observe_nodes_fold by (intros n _; apply Hskip).
  rewrite IH. unfold sub_blocks.
  destruct (visit_order fuel g _); simpl; [|done].
  by rewrite <-app_assoc.
Qed.

(** *** The order of the visit as a tree walk *)

(** The walk below block [b], cut at depth [d]: [b] first, then the
    walks below the blocks nested in [b], the last one first. *)
Fixpoint dfs (d : nat) (g : Graph) (b : BlockId) : list BlockId :=
  match d with
  | 0 => [b]
  | S d => b :: (reverse (sub_blocks g b) ≫= dfs d g)
  end.

Definition block_order (g : Graph) (b : BlockId) : list BlockId :=
  dfs (length (g_blocks g)) g b.

(** Block [c] is [b] or is nested, at any depth, in a node of [b]. *)
Inductive descends (g : Graph) (b : BlockId) : BlockId → Prop :=
  | descends_refl : descends g b b
  | descends_step c c' :
      descends g b c → c' ∈ sub_blocks g c → descends g b c'.

Section nesting.
Variable g : Graph.
(** Blocks are numbered as they are allocated: a nested block comes
    after the block around it. *)
Hypothesis Hnest :
  ∀ b c, c ∈ sub_blocks g b → b < c < length (g_blocks g).

Lemma sub_blocks_out b : length (g_blocks g) ≤ b → sub_blocks g b = [].
Proof.
  intros Hb. apply elem_of_nil_inv. intros c Hc.
  apply Hnest in Hc. lia.
Qed.

Lemma dfs_stable d1 d2 b :
  length (g_blocks g) ≤ b + d1 → length (g_blocks g) ≤ b + d2 →
  dfs d1 g b = dfs d2 g b.
Proof.
  revert d2 b. induction d1 as [|d1 IH]; intros [|d2] b H1 H2; simpl.
  - done.
  - rewrite sub_blocks_out by lia. done.
  - rewrite sub_blocks_out by lia. done.
  - f_equal. apply Forall_bind_ext, Forall_forall.
    intros c Hc. apply (proj1 (elem_of_reverse _ _)), Hnest in Hc.
    apply IH; lia.
Qed.

Lemma block_order_unfold b :
  block_order g b = b :: (reverse (sub_blocks g b) ≫= block_order g).
Proof.
  unfold block_order.
  by rewrite (dfs_stable _ (S (length (g_blocks g))) b) by lia.
Qed.

Lemma visit_order_enough fuel stack :
  length (stack ≫= block_order g) < fuel →
  visit_order fuel g stack = Some (stack ≫= block_order g).
Proof.
  revert stack. induction fuel as [|fuel IH]; intros stack Hlen; [lia|].
  destruct stack as [|b stack]; simpl; [done|].
  rewrite bind_cons, block_order_unfold in Hlen. simpl in Hlen.
  rewrite IH.
  - simpl. rewrite bind_app, (block_order_unfold b). done.
  - rewrite bind_app, length_app. rewrite length_app in Hlen. lia.
Qed.

Lemma descends_trans a b c :
  descends g a b → descends g b c → descends g a c.
Proof.
  intros Hab Hbc. induction Hbc as [|c c' _ IH Hc']; [done|].
  by eapply descends_step.
Qed.

Lemma descends_le b c : descends g b c → b ≤ c.
Proof.
  induction 1 as [|c c' _ IH Hc']; [done|]. apply Hnest in Hc'. lia.
Qed.

Lemma dfs_descends d b c : c ∈ dfs d g b → descends g b c.
Proof.
  revert b. induction d as [|d IH]; intros b; simpl.
  - intros ->%list_elem_of_singleton. apply descends_refl.
  - intros [->|Hin]%elem_of_cons; [apply descends_refl|].
    apply list_elem_of_bind in Hin as (c0 & Hc & Hc0).
    apply (proj1 (elem_of_reverse _ _)) in Hc0.
    apply (descends_trans b c0 c); [|by apply IH].
    apply (descends_step g b b c0); [apply descends_refl|done].
Qed.

Lemma block_order_head b : b ∈ block_order g b.
Proof. rewrite block_order_unfold. left. Qed.

Lemma block_order_sub b c x :
  c ∈ sub_blocks g b → x ∈ block_order g c → x ∈ block_order g b.
Proof.
  intros Hc Hx. rewrite block_order_unfold. right.
  apply list_elem_of_bind. exists c. by rewrite elem_of_reverse.
Qed.

Lemma descends_block_order b c x :
  descends g b c → x ∈ block_order g c → x ∈ block_order g b.
Proof.
  intros Hbc. revert x. induction Hbc as [|c c' _ IH Hc']; [done|].
  intros x Hx. apply IH. by eapply block_order_sub.
Qed.

(** The walk below [b] meets exactly the blocks that descend from
    [b]. *)
Lemma elem_of_block_order b c : c ∈ block_order g b ↔ descends g b c.
Proof.
  split; [apply dfs_descends|].
  intros H. eapply descends_block_order; [done|apply block_order_head].
Qed.

(** A block is nested in one node only, once. *)
Hypothesis Hparent :
  ∀ b1 b2 c, c ∈ sub_blocks g b1 → c ∈ sub_blocks g b2 → b1 = b2.
Hypothesis Hsiblings : ∀ b, NoDup (sub_blocks g b).

Lemma descends_inv b x :
  descends g b x → x = b ∨ ∃ y, descends g b y ∧ x ∈ sub_blocks g y.
Proof. destruct 1 as [|c c' Hc Hc']; [by left|right; eauto]. Qed.

Lemma descends_linear c1 c2 x :
  descends g c1 x → descends g c2 x →
  descends g c1 c2 ∨ descends g c2 c1.
Proof.
  intros H1. revert c2. induction H1 as [|y x H1 IH Hx]; intros c2 H2.
  - by right.
  - apply descends_inv in H2 as [->|(y' & H2 & Hx')].
    + left. by apply (descends_step g c1 y c2).
    + rewrite (Hparent y' y x) in H2 by done. by apply IH.
Qed.

Lemma siblings_disjoint b c1 c2 x :
  c1 ∈ sub_blocks g b → c2 ∈ sub_blocks g b →
  descends g c1 x → descends g c2 x → c1 = c2.
Proof.
  intros Hc1 Hc2 H1 H2.
  assert (∀ a c, a ∈ sub_blocks g b → c ∈ sub_blocks g b →
                 descends g a c → a = c) as Hup.
  { intros a c Ha Hc Hac.
    apply descends_inv in Hac as [->|(y & Hay & Hcy)]; [done|].
    rewrite (Hparent y b c) in Hay by done.
    apply descends_le in Hay. apply Hnest in Ha. lia. }
  destruct (descends_linear c1 c2 x H1 H2) as [H|H].
  - by apply Hup.
  - symmetry. by apply Hup.
Qed.

Lemma NoDup_dfs d b : NoDup (dfs d g b).
Proof.
  revert b. induction d as [|d IH]; intros b; simpl.
  { apply NoDup_singleton. }
  apply NoDup_cons. split.
  - intros (c0 & Hb & Hc0)%list_elem_of_bind.
    apply (proj1 (elem_of_reverse _ _)), Hnest in Hc0.
    apply dfs_descends, descends_le in Hb. lia.
  - apply NoDup_bind.
    + intros x1 x2 y Hx1 Hx2 Hy1 Hy2.
      apply (proj1 (elem_of_reverse _ _)) in Hx1, Hx2.
      apply dfs_descends in Hy1, Hy2.
      by apply (siblings_disjoint b x1 x2 y).
    + intros x _. apply IH.
    + rewrite reverse_Permutation. apply Hsiblings.
Qed.

Lemma descends_lt b c :
  b < length (g_blocks g) → descends g b c → c < length (g_blocks g).
Proof.
  intros Hb [->|(y & _ & Hc%Hnest)]%descends_inv; lia.
Qed.

Lemma block_order_length b :
  b < length (g_blocks g) →
  length (block_order g b) ≤ length (g_blocks g).
Proof.
  intros Hb.
  assert (block_order g b ⊆+ seq 0 (length (g_blocks g))) as Hsub.
  { apply NoDup_submseteq; [apply NoDup_dfs|].
    intros x Hx%elem_of_block_order%(descends_lt b); [|done].
    apply elem_of_seq. lia. }
  apply submseteq_length in Hsub. by rewrite length_seq in Hsub.
Qed.

(** With a bound on the number of loop tests above the number of
    blocks, the loop ends, and it has taken the blocks in the order
    of the walk. *)
Lemma visit_order_top fuel :
  0 < length (g_blocks g) → length (g_blocks g) < fuel →
  visit_order fuel g [top_block] = Some (block_order g top_block).
Proof.
  intros HB Hfuel. rewrite visit_order_enough.
  - by rewrite bind_singleton.
  - rewrite bind_singleton.
    pose proof (block_order_length top_block HB). lia.
Qed.

(** Every block but the first is nested in a node of some block. *)
Hypothesis Howned :
  ∀ c, 0 < c < length (g_blocks g) →
       ∃ b, b < length (g_blocks g) ∧ c ∈ sub_blocks g b.

Lemma descends_all c :
  c < length (g_blocks g) → descends g top_block c.
Proof.
  induction (lt_wf c) as [c _ IH]. intros Hc.
  destruct (decide (c = 0)) as [->|Hne]; [apply descends_refl|].
  destruct (Howned c) as (b & Hb & Hcb); [lia|].
  apply (descends_step g _ b c); [|done].
  apply IH; [|done]. apply Hnest in Hcb. lia.
Qed.

Lemma block_order_all :
  0 < length (g_blocks g) →
  block_order g top_block ≡ₚ seq 0 (length (g_blocks g)).
Proof.
  intros HB. apply NoDup_Permutation; [apply NoDup_dfs|apply NoDup_seq|].
  intros x. rewrite elem_of_block_order, elem_of_seq. split.
  - intros Hx%descends_lt; [lia|done].
  - intros [_ Hx]. by apply descends_all.
Qed.
End nesting.

(** *** Well-formed graphs *)

(** Block [b] is the top-level block, or it is nested in a node that
    stands in a block. *)
Definition nested_in (g : Graph) (b : BlockId) : Prop :=
  match owning_node (block g b) with
  | Some n =>
      n < length (g_nodes g) ∧ b ∈ blocks (node g n) ∧
      match owning_block (node g n) with
      | Some p => p < length (g_blocks g) ∧ n ∈ block_nodes g p
      | None => False
      end
  | None => b = top_block
  end.

#[global] Instance nested_in_dec g b : Decision (nested_in g b).
Proof.
  unfold nested_in. destruct (owning_node (block g b)); [|apply _].
  destruct (owning_block (node g _)); apply _.
Defined.

(** The nodes of a block denote nodes of the graph that know the block
    as their owner, none twice; so do its Param and Return nodes; the
    blocks nested in its nodes were allocated after it. *)
Definition wf_block (g : Graph) (b : BlockId) : Prop :=
  Forall (λ n, n < length (g_nodes g) ∧ owning_block (node g n) = Some b
               ∧ n ≠ output_ (block g b))
         (block_nodes g b) ∧
  NoDup (block_nodes g b) ∧
  output_ (block g b) < length (g_nodes g) ∧
  owning_block (node g (output_ (block g b))) = Some b ∧
  input_ (block g b) < length (g_nodes g) ∧
  Forall (λ c, b < c) (sub_blocks g b) ∧
  nested_in g b.

(** The blocks of a node denote blocks of the graph that know the node
    as their owner, none twice; a constant has no blocks; the outputs
    of the node denote values that know the node as their producer and
    its inputs denote values. *)
Definition wf_node (g : Graph) (n : NodeId) : Prop :=
  Forall (λ c, c < length (g_blocks g) ∧ owning_node (block g c) = Some n)
         (blocks (node g n)) ∧
  NoDup (blocks (node g n)) ∧
  (kind (node g n) = "prim::Constant" → blocks (node g n) = []) ∧
  Forall (λ v, v < length (g_values g) ∧ node_ (value g v) = n)
         (outputs (node g n)) ∧
  Forall (λ v, v < length (g_values g)) (inputs (node g n)).

Definition wf_graph (g : Graph) : Prop :=
  0 < length (g_blocks g) ∧
  Forall (wf_block g) (seq 0 (length (g_blocks g))) ∧
  Forall (wf_node g) (seq 0 (length (g_nodes g))).

#[global] Instance wf_graph_dec g : Decision (wf_graph g).
Proof. unfold wf_graph, wf_block, wf_node. apply _. Defined.

Lemma block_out_of_range g b :
  length (g_blocks g) ≤ b → block_nodes g b = [].
Proof.
  intros Hb. unfold block_nodes, block.
  rewrite list_lookup_total_alt. by rewrite (proj2 (lookup_ge_None _ _) Hb).
Qed.

Section wf.
Variable g : Graph.
Hypothesis Hwf : wf_graph g.

Lemma wf_block_of b : b < length (g_blocks g) → wf_block g b.
Proof.
  intros Hb. destruct Hwf as (_ & Hblocks & _).
  rewrite Forall_forall in Hblocks. apply Hblocks, elem_of_seq. lia.
Qed.

Lemma wf_node_of n : n < length (g_nodes g) → wf_node g n.
Proof.
  intros Hn. destruct Hwf as (_ & _ & Hnodes).
  rewrite Forall_forall in Hnodes. apply Hnodes, elem_of_seq. lia.
Qed.

Lemma block_nodes_in_range b n :
  n ∈ block_nodes g b → b < length (g_blocks g).
Proof.
  intros Hn. destruct (decide (b < length (g_blocks g))); [done|].
  rewrite block_out_of_range in Hn by lia. by apply elem_of_nil in Hn.
Qed.

Lemma wf_block_node b n :
  n ∈ block_nodes g b →
  n < length (g_nodes g) ∧ owning_block (node g n) = Some b ∧
  n ≠ output_ (block g b).
Proof.
  intros Hn. pose proof (block_nodes_in_range b n Hn) as Hb.
  destruct (wf_block_of b Hb) as (Hnodes & _).
  rewrite Forall_forall in Hnodes. by apply Hnodes.
Qed.

Lemma elem_of_sub_blocks b c :
  c ∈ sub_blocks g b ↔
  ∃ n, n ∈ block_nodes g b ∧ c ∈ blocks (node g n).
Proof.
  unfold sub_blocks. rewrite list_elem_of_bind.
  split; intros (n & H1 & H2); exists n; done.
Qed.

Lemma wf_sub_block n c :
  n < length (g_nodes g) → c ∈ blocks (node g n) →
  c < length (g_blocks g) ∧ owning_node (block g c) = Some n.
Proof.
  intros Hn Hc. destruct (wf_node_of n Hn) as (Hsub & _).
  rewrite Forall_forall in Hsub. by apply Hsub.
Qed.

Lemma wf_nest b c : c ∈ sub_blocks g b → b < c < length (g_blocks g).
Proof.
  intros Hc. pose proof Hc as (n & Hn & Hcn)%elem_of_sub_blocks.
  pose proof (block_nodes_in_range b n Hn) as Hb.
  destruct (wf_block_of b Hb) as (_ & _ & _ & _ & _ & Hgt & _).
  rewrite Forall_forall in Hgt. split; [by apply Hgt|].
  apply wf_block_node in Hn as (Hn & _). by apply (wf_sub_block n c).
Qed.

Lemma wf_parent b1 b2 c :
  c ∈ sub_blocks g b1 → c ∈ sub_blocks g b2 → b1 = b2.
Proof.
  intros (n1 & Hn1 & Hc1)%elem_of_sub_blocks
         (n2 & Hn2 & Hc2)%elem_of_sub_blocks.
  apply wf_block_node in Hn1 as (Hn1 & Ho1 & _).
  apply wf_block_node in Hn2 as (Hn2 & Ho2 & _).
  apply (wf_sub_block n1 c Hn1) in Hc1 as (_ & Hc1).
  apply (wf_sub_block n2 c Hn2) in Hc2 as (_ & Hc2).
  congruence.
Qed.

Lemma wf_siblings b : NoDup (sub_blocks g b).
Proof.
  destruct (decide (b < length (g_blocks g))) as [Hb|Hb].
  - destruct (wf_block_of b Hb) as (_ & Hnodup & _).
    apply NoDup_bind; [|  |done].
    + intros n1 n2 c Hn1 Hn2 Hc1 Hc2.
      apply wf_block_node in Hn1 as (Hn1 & _).
      apply wf_block_node in Hn2 as (Hn2 & _).
      apply (wf_sub_block n1 c Hn1) in Hc1 as (_ & Hc1).
      apply (wf_sub_block n2 c Hn2) in Hc2 as (_ & Hc2).
      congruence.
    + intros n Hn. apply wf_block_node in Hn as (Hn & _).
      by destruct (wf_node_of n Hn) as (_ & Hnd & _).
  - unfold sub_blocks. rewrite block_out_of_range by lia. constructor.
Qed.

Lemma wf_owned c :
  0 < c < length (g_blocks g) →
  ∃ b, b < length (g_blocks g) ∧ c ∈ sub_blocks g b.
Proof.
  intros [Hc0 Hc].
  destruct (wf_block_of c Hc) as (_ & _ & _ & _ & _ & _ & Hin).
  unfold nested_in in Hin.
  destruct (owning_node (block g c)) as [n|]; [|unfold top_block in Hin; lia].
  destruct Hin as (Hn & Hcn & Hp).
  destruct (owning_block (node g n)) as [p|]; [|done].
  destruct Hp as [Hp Hnp]. exists p. split; [done|].
  apply elem_of_sub_blocks. eauto.
Qed.

Lemma wf_constant_blocks n :
  kind (node g n) = "prim::Constant" → blocks (node g n) = [].
Proof.
  intros Hk. destruct (decide (n < length (g_nodes g))) as [Hn|Hn].
  - destruct (wf_node_of n Hn) as (_ & _ & Hc & _). by apply Hc.
  - unfold node. rewrite list_lookup_total_alt.
    by rewrite (proj2 (lookup_ge_None _ _)) by lia.
Qed.
End wf.

(** *** What the marking loop records *)

(** Every value of the look-up set is in the list of output-side
    values. *)
Definition marks_ok (m : Marks) : Prop :=
  ∀ v, v ∈ valueLookup m → v ∈ quantOutputs m.

Definition marks_le (m m' : Marks) : Prop :=
  ∀ v, v ∈ quantOutputs m → v ∈ quantOutputs m'.

Definition marks_step {X} (f : Marks → X → Marks) : Prop :=
  ∀ m x, marks_ok m → marks_ok (f m x) ∧ marks_le m (f m x).

Lemma fold_marks {X} (f : Marks → X → Marks) (l : list X) m :
  marks_step f → marks_ok m →
  marks_ok (fold_left f l m) ∧ marks_le m (fold_left f l m).
Proof.
  intros Hf. revert m. induction l as [|x l IH]; intros m Hm; simpl.
  - split; [done|]. by intros v.
  - destruct (Hf m x Hm) as [Hok Hle].
    destruct (IH _ Hok) as [Hok' Hle']. split; [done|].
    intros v Hv. by apply Hle', Hle.
Qed.

Lemma fold_marks_hit {X} (f : Marks → X → Marks) (l : list X) m x0 v :
  marks_step f →
  (∀ m, marks_ok m → v ∈ quantOutputs (f m x0)) →
  x0 ∈ l → marks_ok m → v ∈ quantOutputs (fold_left f l m).
Proof.
  intros Hf Hhit Hin. revert m.
  induction Hin as [x0 l|x0 y l Hin IH]; intros m Hm; simpl.
  - destruct (Hf m x0 Hm) as [Hok _].
    by apply (fold_marks f l), Hhit.
  - destruct (Hf m y Hm) as [Hok _]. by apply IH.
Qed.

Lemma mark_input_step g n : marks_step (mark_input g n).
Proof.
  intros m v Hm. unfold mark_input.
  repeat case_match; try (split; [done|by intros ?]); simpl.
  split.
  - intros w. simpl. rewrite elem_of_union, elem_of_singleton, elem_of_app,
      list_elem_of_singleton. intros [->|Hw]; [by right|left; by apply Hm].
  - intros w Hw. simpl. rewrite elem_of_app. by left.
Qed.

Lemma mark_input_hit g n m v :
  isSubtypeOfTensor (type_ (value g v)) = true →
  checkIfNodeQuantizable g (node_ (value g v)) = true →
  marks_ok m → v ∈ quantOutputs (mark_input g n m v).
Proof.
  intros Ht Hq Hm. unfold mark_input. rewrite Ht, Hq. simpl.
  case_match eqn:Hseen; simpl.
  - apply bool_decide_eq_true in Hseen. by apply Hm.
  - rewrite elem_of_app, list_elem_of_singleton. by right.
Qed.

Lemma mark_block_output_step g : marks_step (mark_block_output g).
Proof.
  intros m v Hm. unfold mark_block_output.
  case_match; [|split; [done|by intros ?]]. simpl. split.
  - intros w Hw. simpl. rewrite elem_of_app. left. by apply Hm.
  - intros w Hw. simpl. rewrite elem_of_app. by left.
Qed.

Lemma mark_node_inputs_step g :
  marks_step (λ m n, fold_left (mark_input g n) (inputs (node g n)) m).
Proof. intros m n Hm. apply fold_marks; [apply mark_input_step|done]. Qed.

Lemma mark_block_step g : marks_step (mark_block g).
Proof.
  intros m b Hm. unfold mark_block.
  destruct (fold_marks _ (block_nodes g b) m (mark_node_inputs_step g) Hm)
    as [Hok Hle].
  destruct (fold_marks _ (block_outputs g b) _ (mark_block_output_step g) Hok)
    as [Hok' Hle'].
  split; [done|]. intros v Hv. by apply Hle', Hle.
Qed.

(** A tensor value with a quantizable producer that a node of a visited
    block reads is recorded for the output-side rewrite. *)
Lemma mark_blocks_hit g order b n v :
  b ∈ order → n ∈ block_nodes g b → v ∈ inputs (node g n) →
  isSubtypeOfTensor (type_ (value g v)) = true →
  checkIfNodeQuantizable g (node_ (value g v)) = true →
  v ∈ quantOutputs (fold_left (mark_block g) order (mkMarks [] [] ∅)).
Proof.
  intros Hb Hn Hv Ht Hq.
  apply (fold_marks_hit _ order _ b); [apply mark_block_step| |done|].
  - intros m Hm. unfold mark_block.
    apply (fold_marks _ (block_outputs g b)); [apply mark_block_output_step|..].
    + by apply fold_marks; [apply mark_node_inputs_step|].
    + apply (fold_marks_hit _ (block_nodes g b) _ n);
        [apply mark_node_inputs_step| |done|done].
      intros m' Hm'.
      apply (fold_marks_hit _ (inputs (node g n)) _ v);
        [apply mark_input_step| |done|done].
      intros m''. by apply mark_input_hit.
  - intros w Hw. simpl in Hw. by apply elem_of_empty in Hw.
Qed.

(** *** The visit of the nodes *)

(** Node [n] stands in the starting block or in a block nested, at any
    depth, in a node that does. *)
Definition reachable_node (g : Graph) (n : NodeId) : Prop :=
  ∃ b, descends g top_block b ∧ n ∈ block_nodes g b.

(** Two levels of nesting: the top-level block holds an If node; its
    first block holds [x -> relu -> u -> neg]; its second block holds
    another If node, whose first block holds [x -> relu -> v -> neg].
    [v] is the value 6, produced by node 12 and read by node 13, both in
    block 3. *)
Definition nested : Graph :=
  mkGraph
    [ mkNode "prim::Param" "" [] [0; 1] [] (Some 0) "" None;
      mkNode "prim::Return" "" [2] [] [] (Some 0) "" None;
      mkNode "prim::If" "" [1] [2] [1; 2] (Some 0) "" None;
      mkNode "prim::Param" "" [] [] [] (Some 1) "" None;
      mkNode "prim::Return" "" [4] [] [] (Some 1) "" None;
      mkNode "aten::relu" "aten::relu(Tensor self) -> Tensor"
             [0] [3] [] (Some 1) "" None;
      mkNode "aten::neg" "aten::neg(Tensor self) -> Tensor"
             [3] [4] [] (Some 1) "" None;
      mkNode "prim::Param" "" [] [] [] (Some 2) "" None;
      mkNode "prim::Return" "" [5] [] [] (Some 2) "" None;
      mkNode "prim::If" "" [1] [5] [3; 4] (Some 2) "" None;
      mkNode "prim::Param" "" [] [] [] (Some 3) "" None;
      mkNode "prim::Return" "" [7] [] [] (Some 3) "" None;
      mkNode "aten::relu" "aten::relu(Tensor self) -> Tensor"
             [0] [6] [] (Some 3) "" None;
      mkNode "aten::neg" "aten::neg(Tensor self) -> Tensor"
             [6] [7] [] (Some 3) "" None;
      mkNode "prim::Param" "" [] [] [] (Some 4) "" None;
      mkNode "prim::Return" "" [0] [] [] (Some 4) "" None ]
    [ mkValue TensorType "x" 0; mkValue BoolType "cond" 0;
      mkValue TensorType "r" 2; mkValue TensorType "u" 5;
      mkValue TensorType "w" 6; mkValue TensorType "s" 9;
      mkValue TensorType "v" 12; mkValue TensorType "y" 13 ]
    [ mkBlock [2] 0 1 None;
      mkBlock [5; 6] 3 4 (Some 2);
      mkBlock [9] 7 8 (Some 2);
      mkBlock [12; 13] 10 11 (Some 9);
      mkBlock [] 14 15 (Some 9) ]
    "" 1.

Lemma wf_nested : wf_graph nested.
Proof. apply (bool_decide_unpack _). vm_compute. exact I. Qed.

Lemma NoDup_visited g :
  wf_graph g → NoDup (block_order g top_block ≫= block_nodes g).
Proof.
  intros Hwf. apply NoDup_bind.
  - intros b1 b2 n _ _ H1 H2.
    apply (wf_block_node g Hwf) in H1 as (_ & H1 & _).
    apply (wf_block_node g Hwf) in H2 as (_ & H2 & _). congruence.
  - intros b _. destruct (decide (b < length (g_blocks g))) as [Hb|Hb].
    + by destruct (wf_block_of g Hwf b Hb) as (_ & Hnd & _).
    + rewrite block_out_of_range by lia. constructor.
  - apply NoDup_dfs; [apply wf_nest|apply wf_parent|apply wf_siblings]; done.
Qed.

(** C4.  In a well-formed graph, of any depth of nesting, the work-stack
    loop of both passes takes every block that descends from the
    top-level block once; so the nodes it goes through are the nodes
    reachable from the top-level block, each once.  Hence a tensor value
    with a quantizable producer that is read by a node at any depth is
    recorded for the output-side rewrite, and [InsertQuantDequantNodes]
    applies [addQuantDeQuantNodes] to it as to any other.  In [nested],
    the value [v] produced and read two levels down gets its pair right
    there, in block 3. *)
Theorem traversal_visits_every_node_once :
  (∀ g, wf_graph g →
     let order := block_order g top_block in
     let visited := order ≫= block_nodes g in
     NoDup visited ∧
     (∀ n, n ∈ visited ↔ reachable_node g n) ∧
     (∀ fuel m, length (g_blocks g) < fuel →
        mark_blocks fuel g [top_block] m
        = Some (fold_left (mark_block g) order m)) ∧
     (∀ fuel s acc, length (g_blocks g) < fuel →
        (∀ n, n ∈ s → blocks (node g n) = []) →
        observe_blocks fuel g s [top_block] acc
        = Some (acc ++ (order ≫= observed_in_block g s))) ∧
     (∀ fuel, length (g_blocks g) < fuel →
        ∃ m, mark_blocks fuel g [top_block] (mkMarks [] [] ∅) = Some m ∧
             InsertQuantDequantNodes fuel g
             = Some (fold_left
                       (λ g ele, addQuantDeQuantNodesForInput ele.1 ele.2 g)
                       (quantInputs m)
                       (fold_left (λ g ele, addQuantDeQuantNodes ele g)
                                  (quantOutputs m) g)) ∧
             ∀ n v, reachable_node g n → v ∈ inputs (node g n) →
                    isSubtypeOfTensor (type_ (value g v)) = true →
                    checkIfNodeQuantizable g (node_ (value g v)) = true →
                    v ∈ quantOutputs m)) ∧
  (block_order nested top_block = [0; 2; 4; 3; 1] ∧
   ∃ g', InsertQuantDequantNodes 6 nested = Some g' ∧
         block_nodes g' 3 = [26; 27; 24; 25; 12; 18; 19; 16; 17; 13] ∧
         kind (node g' 16) = "aten::quantize_linear" ∧
         kind (node g' 17) = "aten::dequantize" ∧
         inputs (node g' 16) = [6; output g' 18; output g' 19] ∧
         inputs (node g' 17) = [output g' 16] ∧
         inputs (node g' 13) = [output g' 17]).
Proof.
  split.
  - intros g Hwf order visited.
    pose proof (wf_nest g Hwf) as Hnest.
    pose proof (wf_parent g Hwf) as Hparent.
    pose proof (wf_siblings g Hwf) as Hsib.
    assert (HB : 0 < length (g_blocks g)) by apply Hwf.
    assert (Hvisit : ∀ fuel, length (g_blocks g) < fuel →
              visit_order fuel g [top_block] = Some order).
    { intros fuel Hfuel. by apply visit_order_top. }
    assert (Hin : ∀ n, n ∈ visited ↔ reachable_node g n).
    { intros n. unfold visited, reachable_node. rewrite list_elem_of_bind.
      split; intros (b & H1 & H2); exists b.
      - split; [|done]. by apply elem_of_block_order in H2.
      - split; [done|]. by apply elem_of_block_order. }
    split_and!.
    + by apply NoDup_visited.
    + done.
    + intros fuel m Hfuel. by rewrite mark_blocks_order, Hvisit.
    + intros fuel s acc Hfuel Hs. rewrite observe_blocks_order, Hvisit; [done..|].
      intros n Hn. unfold observed_node in Hn.
      destruct (decide (kind (node g n) = "prim::Constant")) as [Hk|Hk].
      * by apply (wf_constant_blocks g Hwf).
      * apply Hs. destruct (decide (n ∈ s)); [done|]. by destruct Hn.
    + intros fuel Hfuel. eexists. split_and!.
      * by rewrite mark_blocks_order, Hvisit.
      * unfold InsertQuantDequantNodes.
        by rewrite mark_blocks_order, Hvisit.
      * intros n v (b & Hb & Hn)%Hin%list_elem_of_bind Hv Ht Hq.
        by apply (mark_blocks_hit g order b n v).
  - split; [by vm_compute|].
    eexists. split; [by vm_compute|]. by vm_compute.
Qed.

Lemma traversal_visits_every_node_once_witness :
  NoDup (block_order nested top_block ≫= block_nodes nested) ∧
  ∃ m, mark_blocks 6 nested [top_block] (mkMarks [] [] ∅) = Some m ∧
       6 ∈ quantOutputs m.
Proof.
  destruct (proj1 traversal_visits_every_node_once nested wf_nested)
    as (Hnodup & Hin & _ & _ & Hpass).
  split; [exact Hnodup|].
  destruct (Hpass 6) as (m & Hm & _ & Hhit); [simpl; lia|].
  exists m. split; [exact Hm|].
  apply (Hhit 13 6); [|by left|done|done].
  apply Hin. apply (bool_decide_unpack _). vm_compute. exact I.
Defined.

End Traversal.

(** ** The observer pass *)

Module Observers.
Import IR Quantization Facts Traversal.

Lemma addOutput_last ns nd vs bs sc ip :
  addOutput (length ns) (mkGraph (ns ++ [nd]) vs bs sc ip)
  = (length vs,
     mkGraph (ns ++ [with_outputs (λ l, l ++ [length vs]) nd])
             (vs ++ [mkValue TensorType "" (length ns)]) bs sc ip).
Proof. unfold addOutput, upd_node. graph_simpl. done. Qed.

Lemma copyMetadata_last v0 m ns vs bs sc ip :
  copyMetadata (length vs) m
    (mkGraph ns (vs ++ [mkValue TensorType "" v0]) bs sc ip)
  = mkGraph ns (vs ++ [mkValue m.1 m.2 v0]) bs sc ip.
Proof.
  unfold copyMetadata. graph_unfold. graph_simpl.
  case_decide as Hname; graph_simpl; [by rewrite Hname|done].
Qed.

Lemma clone_outputs_fold ms ns nd vs bs sc ip :
  fold_left (λ g m, let '(v, g) := addOutput (length ns) g in
                    copyMetadata v m g)
            ms (mkGraph (ns ++ [nd]) vs bs sc ip)
  = mkGraph
      (ns ++ [with_outputs (λ l, l ++ seq (length vs) (length ms)) nd])
      (vs ++ ((λ m, mkValue m.1 m.2 (length ns)) <$> ms)) bs sc ip.
Proof.
  revert nd vs. induction ms as [|m ms IH]; intros nd vs;
    cbn [fold_left length fmap list_fmap].
  - destruct nd. unfold with_outputs. simpl. by rewrite !app_nil_r.
  - rewrite addOutput_last, copyMetadata_last, IH.
    rewrite length_app, <-app_assoc. simpl. rewrite Nat.add_1_r.
    destruct nd. unfold with_outputs. simpl. by rewrite <-app_assoc.
Qed.

Lemma clone_inputs_fold (ins : list ValueId) ns nd vs bs sc ip :
  fold_left (λ g i, addInput (length ns) i g) ins
            (mkGraph (ns ++ [nd]) vs bs sc ip)
  = mkGraph (ns ++ [with_inputs (λ l, l ++ ins) nd]) vs bs sc ip.
Proof.
  revert nd. induction ins as [|i ins IH]; intros nd; cbn [fold_left].
  - destruct nd. unfold with_inputs. simpl. by rewrite app_nil_r.
  - unfold addInput at 2. unfold upd_node. graph_simpl. rewrite IH.
    destruct nd. unfold with_inputs. simpl. by rewrite <-app_assoc.
Qed.

Lemma createClone_mk t ns vs bs sc ip :
  createClone t (mkGraph ns vs bs sc ip)
  = (length ns,
     mkGraph
       (ns ++ [mkNode (t_kind t) (t_schema t) (t_inputs t)
                      (seq (length vs) (length (t_outputs t))) [] None
                      (t_scope t) (t_attr t)])
       (vs ++ ((λ m, mkValue m.1 m.2 (length ns)) <$> t_outputs t))
       bs sc ip).
Proof.
  unfold createClone. graph_simpl.
  rewrite clone_outputs_fold. unfold upd_node. graph_simpl.
  rewrite clone_inputs_fold. graph_simpl. done.
Qed.

(** The two nodes that observing [v] adds to the arena, and the values
    they bring: the constant with the name of [v], then the clone of
    the template, whose last output is the observed value. *)
Definition observer_nodes (t : Template) (g : Graph) (v : ValueId)
    (ob : option BlockId) : list Node :=
  let V := length (g_values g) in
  let T := length (t_outputs t) in
  [ mkNode "prim::Constant" "" [] [V] [] ob (current_scope_ g)
           (Some (Str (uniqueName g v)));
    mkNode (t_kind t) (t_schema t) (t_inputs t ++ [v; V])
           (seq (V + 1) T ++ [V + 1 + T]) [] ob (t_scope t) (t_attr t) ].

Definition observer_values (t : Template) (g : Graph) (v : ValueId)
  : list Value :=
  let N := length (g_nodes g) in
  mkValue StringType "" N
  :: ((λ m, mkValue m.1 m.2 (N + 1)) <$> t_outputs t)
  ++ [mkValue (type_ (value g v)) (uniqueName g v +:+ ".observed") (N + 1)].

(** The graph after [v] was observed, the two nodes having joined the
    block [ob] with its list rearranged by [F]. *)
Definition observed (t : Template) (g : Graph) (v : ValueId)
    (ob : option BlockId) (F : list NodeId → list NodeId) : Graph :=
  mkGraph (g_nodes g ++ observer_nodes t g v ob)
          (g_values g ++ observer_values t g v)
          (blocks_with ob F (g_blocks g))
          (current_scope_ g) (insert_before_ g).

(** A rearrangement of a node list that only inserts nodes created
    from index [N] on. *)
Definition fresh_insert (N : nat) (F : list NodeId → list NodeId) : Prop :=
  ∀ l, filter (λ n, n < N) (F l) = filter (λ n, n < N) l.

Lemma fresh_insert_mono N N1 F :
  N ≤ N1 → fresh_insert N1 F → fresh_insert N F.
Proof.
  intros Hle HF l.
  rewrite <-(list_filter_filter_l (λ n, n < N) (λ n, n < N1) (F l))
    by (intros; lia).
  rewrite HF. apply list_filter_filter_l. intros; lia.
Qed.

Lemma fresh_insert_id N : fresh_insert N id.
Proof. by intros l. Qed.

Lemma fresh_insert_compose N F1 F2 :
  fresh_insert N F1 → fresh_insert N F2 → fresh_insert N (F1 ∘ F2).
Proof. intros H1 H2 l. unfold compose. by rewrite H1, H2. Qed.

Lemma fresh_insert_after N x n :
  N ≤ x → fresh_insert N (list_insert_after x n).
Proof.
  intros Hx l. induction l as [|y l IH]; simpl; [done|].
  case_decide as Hy.
  - rewrite !filter_cons. rewrite (decide_False (P := x < N)) by lia. done.
  - rewrite !filter_cons, IH. done.
Qed.

Lemma fresh_insert_before N out x n :
  N ≤ x → fresh_insert N (place_before out x n).
Proof.
  intros Hx l. unfold place_before. case_decide as Hout.
  - rewrite filter_app, filter_cons, filter_nil.
    rewrite (decide_False (P := x < N)) by lia. by rewrite app_nil_r.
  - induction l as [|y l IH]; simpl; [done|].
    case_decide as Hy.
    + rewrite !filter_cons. rewrite (decide_False (P := x < N)) by lia. done.
    + rewrite !filter_cons, IH. done.
Qed.

Lemma addObserverFor_mk v t ip ns vs bs sc cur :
  v < length vs → ip < length ns →
  let g := mkGraph ns vs bs sc cur in
  let ob := owning_block (ns !!! ip) in
  addObserverFor v t ip g
  = (length ns + 1,
     mkGraph
       (ns ++
          [mkNode "prim::Constant" "" [] [length vs] [] ob sc
                  (Some (Str (uniqueName g v)));
           mkNode (t_kind t) (t_schema t) (t_inputs t ++ [v; length vs])
                  (seq (length vs + 1) (length (t_outputs t))
                   ++ [length vs + 1 + length (t_outputs t)])
                  [] None (t_scope t) (t_attr t)])
       (vs ++ observer_values t g v)
       (blocks_with ob
          (match ob with
           | Some b => place_before (output_ (bs !!! b)) (length ns) ip
           | None => id
           end) bs)
       sc cur).
Proof.
  intros Hv Hip g ob. subst g ob. unfold addObserverFor, setInsertPoint.
  cbn [g_nodes g_values g_blocks current_scope_ insert_before_].
  rewrite insertConstant_mk by done. cbv beta iota zeta.
  rewrite createClone_mk. cbv beta iota zeta.
  rewrite addOutput_last. unfold observer_values. graph_unfold.
  graph_simpl. rewrite <-?Nat.add_assoc.
  unfold with_inputs, with_outputs, with_name, with_type. simpl.
  by rewrite <-?app_assoc.
Qed.

Lemma observe_value_eq t g v :
  v < length (g_values g) → node_ (value g v) < length (g_nodes g) →
  isSubtypeOfTensor (type_ (value g v)) = true →
  ∃ F, fresh_insert (length (g_nodes g)) F ∧
       observe_value t g v
       = observed t g v (owning_block (node g (node_ (value g v)))) F.
Proof.
  intros Hv Hn Ht. unfold observe_value. rewrite Ht.
  destruct g as [ns vs bs sc cur]. unfold value, node in *.
  cbn [g_nodes g_values g_blocks current_scope_ insert_before_] in *.
  rewrite addObserverFor_mk by done. cbv beta iota zeta.
  unfold insertAfter, observed, observer_nodes. graph_unfold. graph_simpl.
  destruct (owning_block (ns !!! node_ (vs !!! v))) as [b|] eqn:Hb.
  - eexists. split; [|graph_simpl; cbn [blocks_with];
                      rewrite alter_with_nodes2; reflexivity].
    apply fresh_insert_compose;
      [apply fresh_insert_after|apply fresh_insert_before]; lia.
  - exists id. split; [apply fresh_insert_id|done].
Qed.

Lemma observe_input_eq t ip g s idx :
  let v := graph_inputs g !!! idx in
  v < length (g_values g) → ip < length (g_nodes g) →
  isSubtypeOfTensor (type_ (value g v)) = true →
  ∃ F, fresh_insert (length (g_nodes g)) F ∧
       observe_input t ip (g, s) idx
       = (observed t g v (owning_block (node g ip)) F,
          {[length (g_nodes g) + 1]} ∪ s).
Proof.
  intros v Hv Hip Ht. unfold observe_input. fold v. rewrite Ht.
  clearbody v.
  destruct g as [ns vs bs sc cur]. unfold value, node in *.
  cbn [g_nodes g_values g_blocks current_scope_ insert_before_] in *.
  rewrite addObserverFor_mk by done. cbv beta iota zeta.
  unfold insertBefore, observed, observer_nodes. graph_unfold. graph_simpl.
  destruct (owning_block (ns !!! ip)) as [b|] eqn:Hb.
  - eexists. split; [|graph_simpl; cbn [blocks_with];
                      rewrite output_alter_with_nodes, alter_with_nodes2;
                      reflexivity].
    apply fresh_insert_compose; apply fresh_insert_before; lia.
  - exists id. split; [apply fresh_insert_id|done].
Qed.

Lemma observe_input_skip t ip g s idx :
  isSubtypeOfTensor (type_ (value g (graph_inputs g !!! idx))) = false →
  observe_input t ip (g, s) idx = (g, s).
Proof. intros Ht. unfold observe_input. by rewrite Ht. Qed.

Lemma observe_value_skip t g v :
  isSubtypeOfTensor (type_ (value g v)) = false → observe_value t g v = g.
Proof. intros Ht. unfold observe_value. by rewrite Ht. Qed.

(** *** A sequence of observations *)

(** [observes t g vs g']: [g'] is [g] after the values [vs], all values
    of [g], were observed one after the other. *)
Inductive observes (t : Template) (g : Graph) : list ValueId → Graph → Prop :=
  | observes_nil : observes t g [] g
  | observes_snoc vs g1 v ob F :
      observes t g vs g1 →
      v < length (g_values g) →
      fresh_insert (length (g_nodes g1)) F →
      observes t g (vs ++ [v]) (observed t g1 v ob F).

Lemma observer_values_length t g v :
  length (observer_values t g v) = length (t_outputs t) + 2.
Proof.
  unfold observer_values. simpl. rewrite length_app, length_fmap. simpl. lia.
Qed.

Lemma observes_nodes t g vs g' :
  observes t g vs g' →
  ∃ news, g_nodes g' = g_nodes g ++ news ∧ length news = 2 * length vs.
Proof.
  induction 1 as [|vs g1 v ob F _ (news & Hn & Hlen) Hv HF].
  - exists []. by rewrite app_nil_r.
  - exists (news ++ observer_nodes t g1 v ob). simpl. rewrite Hn, app_assoc.
    split; [done|]. rewrite !length_app, Hlen. simpl. lia.
Qed.

Lemma observes_values t g vs g' :
  observes t g vs g' →
  ∃ newv, g_values g' = g_values g ++ newv ∧
          length newv = (length (t_outputs t) + 2) * length vs.
Proof.
  induction 1 as [|vs g1 v ob F _ (newv & Hn & Hlen) Hv HF].
  - exists []. rewrite app_nil_r. split; [done|simpl; lia].
  - exists (newv ++ observer_values t g1 v). simpl. rewrite Hn, app_assoc.
    split; [done|]. rewrite !length_app, Hlen, observer_values_length.
    simpl. lia.
Qed.

Lemma observes_nodes_length t g vs g' :
  observes t g vs g' →
  length (g_nodes g') = length (g_nodes g) + 2 * length vs.
Proof.
  intros (news & -> & Hlen)%observes_nodes. rewrite length_app. lia.
Qed.

Lemma observes_values_length t g vs g' :
  observes t g vs g' →
  length (g_values g') =
  length (g_values g) + (length (t_outputs t) + 2) * length vs.
Proof.
  intros (newv & -> & Hlen)%observes_values. rewrite length_app. lia.
Qed.

(** Observation leaves every node and every value of [g] as it is. *)
Lemma observes_node_old t g vs g' n :
  observes t g vs g' → n < length (g_nodes g) → node g' n = node g n.
Proof.
  intros (news & Hn & _)%observes_nodes Hlt. unfold node.
  by rewrite Hn, lookup_total_app_l.
Qed.

Lemma observes_value_old t g vs g' v :
  observes t g vs g' → v < length (g_values g) → value g' v = value g v.
Proof.
  intros (newv & Hn & _)%observes_values Hlt. unfold value.
  by rewrite Hn, lookup_total_app_l.
Qed.

Lemma observes_uniqueName t g vs g' v :
  observes t g vs g' → v < length (g_values g) →
  uniqueName g' v = uniqueName g v.
Proof.
  intros H Hv. unfold uniqueName. by rewrite (observes_value_old t g vs g').
Qed.

Lemma blocks_with_length ob F bs :
  length (blocks_with ob F bs) = length bs.
Proof. destruct ob; simpl; [apply length_alter|done]. Qed.

Lemma blocks_with_lookup ob F bs b :
  input_ (blocks_with ob F bs !!! b) = input_ (bs !!! b) ∧
  output_ (blocks_with ob F bs !!! b) = output_ (bs !!! b) ∧
  owning_node (blocks_with ob F bs !!! b) = owning_node (bs !!! b) ∧
  ∀ N, fresh_insert N F →
       filter (λ n, n < N) (nodes (blocks_with ob F bs !!! b))
       = filter (λ n, n < N) (nodes (bs !!! b)).
Proof.
  destruct ob as [b0|]; simpl; [|done].
  rewrite list_lookup_total_alter.
  case_decide as Hb; [|done]. destruct Hb as [-> _]. simpl.
  split_and!; [done..|]. intros N HF. apply HF.
Qed.

Lemma observes_blocks t g vs g' :
  observes t g vs g' →
  length (g_blocks g') = length (g_blocks g) ∧
  ∀ b, input_ (block g' b) = input_ (block g b) ∧
       output_ (block g' b) = output_ (block g b) ∧
       filter (λ n, n < length (g_nodes g)) (block_nodes g' b)
       = filter (λ n, n < length (g_nodes g)) (block_nodes g b).
Proof.
  induction 1 as [|vs g1 v ob F Hobs [IHlen IH] Hv HF]; [done|].
  split; [simpl; by rewrite blocks_with_length|]. intros b.
  destruct (blocks_with_lookup ob F (g_blocks g1) b) as (Hi & Ho & _ & Hf).
  destruct (IH b) as (IHi & IHo & IHf).
  unfold block_nodes, block in *. simpl.
  rewrite Hi, Ho. split_and!; [done..|].
  rewrite <-IHf. apply Hf.
  apply (fresh_insert_mono _ (length (g_nodes g1))); [|done].
  rewrite (observes_nodes_length t g vs g1) by done. lia.
Qed.

(** In [g'] the nodes [c] and [c + 1] are the pair that observes the
    value [v] of [g]: [c] is the constant holding the name of [v];
    [c + 1] is the clone of the template, which reads the inputs of the
    template, then [v] and the constant, and whose outputs are those
    copied from the template and one more, [o], a new value with the
    type of [v] and the name of [v] followed by ".observed". *)
Definition observer_at (t : Template) (g g' : Graph) (c : NodeId)
    (v : ValueId) : Prop :=
  ∃ cv touts o,
    c + 1 < length (g_nodes g') ∧
    kind (node g' c) = "prim::Constant" ∧
    attr (node g' c) = Some (Str (uniqueName g v)) ∧
    inputs (node g' c) = [] ∧
    outputs (node g' c) = [cv] ∧
    blocks (node g' c) = [] ∧
    kind (node g' (c + 1)) = t_kind t ∧
    inputs (node g' (c + 1)) = t_inputs t ++ [v; cv] ∧
    outputs (node g' (c + 1)) = touts ++ [o] ∧
    length touts = length (t_outputs t) ∧
    blocks (node g' (c + 1)) = [] ∧
    length (g_values g) ≤ cv < length (g_values g') ∧
    length (g_values g) ≤ o < length (g_values g') ∧
    type_ (value g' cv) = StringType ∧
    value g' o
    = mkValue (type_ (value g v)) (uniqueName g v +:+ ".observed") (c + 1).

Lemma observer_at_grow t g g1 c v v' ob F :
  observer_at t g g1 c v → observer_at t g (observed t g1 v' ob F) c v.
Proof.
  intros (cv & touts & o & Hc & Hk & Ha & Hi & Ho & Hb & Hk' & Hi' & Ho'
          & Hlen & Hb' & Hcv & Hov & Hty & Hval).
  exists cv, touts, o. unfold node, value in *. simpl.
  rewrite !lookup_total_app_l by lia.
  rewrite !length_app. split_and!; try done; lia.
Qed.

Lemma observer_at_new t g vs g1 v ob F :
  observes t g vs g1 → v < length (g_values g) →
  observer_at t g (observed t g1 v ob F) (length (g_nodes g1)) v.
Proof.
  intros Hobs Hv.
  pose proof (observes_values_length t g vs g1 Hobs) as HV.
  exists (length (g_values g1)),
         (seq (length (g_values g1) + 1) (length (t_outputs t))),
         (length (g_values g1) + 1 + length (t_outputs t)).
  unfold node, value, observed, observer_nodes, observer_values.
  cbn [g_nodes g_values].
  rewrite lookup_total_app_at0, lookup_total_app_at.
  rewrite <-(Nat.add_assoc (length (g_values g1))).
  rewrite lookup_total_app_at0, lookup_total_app_at.
  rewrite !length_app, length_seq. simpl.
  rewrite length_app, length_fmap. simpl.
  rewrite lookup_total_fmap_app_at0. simpl.
  fold (value g1 v).
  rewrite (observes_value_old t g vs g1), (observes_uniqueName t g vs g1)
    by done.
  split_and!; try done; lia.
Qed.

Lemma observes_at t g vs g' :
  observes t g vs g' →
  ∀ i v, vs !! i = Some v →
         observer_at t g g' (length (g_nodes g) + 2 * i) v.
Proof.
  induction 1 as [|vs g1 v0 ob F Hobs IH Hv HF]; intros i v Hi; [done|].
  apply lookup_app_Some in Hi as [Hi|[Hlen Hi]].
  - by apply observer_at_grow, IH.
  - apply list_lookup_singleton_Some in Hi as [Hi ->].
    replace (length (g_nodes g) + 2 * i) with (length (g_nodes g1)).
    + by apply (observer_at_new t g vs).
    + rewrite (observes_nodes_length t g vs g1) by done. lia.
Qed.

(** The values that were observed are values of [g]. *)
Lemma observes_valid t g vs g' :
  observes t g vs g' → Forall (λ v, v < length (g_values g)) vs.
Proof.
  induction 1 as [|vs g1 v0 ob F Hobs IH Hv HF]; [constructor|].
  apply Forall_app. split; [done|]. by constructor.
Qed.

(** Every node that was added is the constant or the clone of a
    pair. *)
Lemma observes_new_node t g vs g' n :
  observes t g vs g' →
  length (g_nodes g) ≤ n < length (g_nodes g') →
  ∃ i v, vs !! i = Some v ∧
         (n = length (g_nodes g) + 2 * i ∨ n = length (g_nodes g) + 2 * i + 1).
Proof.
  intros Hobs Hn. rewrite (observes_nodes_length t g vs g') in Hn by done.
  destruct (Nat.Even_or_Odd (n - length (g_nodes g))) as [[i Hi]|[i Hi]];
    (destruct (lookup_lt_is_Some_2 vs i) as [v Hv]; [lia|]);
    exists i, v; (split; [done|lia]).
Qed.

Lemma observes_new_blocks t g vs g' n :
  observes t g vs g' → length (g_nodes g) ≤ n → blocks (node g' n) = [].
Proof.
  intros Hobs Hn.
  destruct (decide (n < length (g_nodes g'))) as [Hlt|Hge].
  - destruct (observes_new_node t g vs g' n Hobs) as (i & v & Hv & Heq);
      [lia|].
    destruct (observes_at t g vs g' Hobs i v Hv)
      as (cv & touts & o & _ & _ & _ & _ & _ & Hb & _ & _ & _ & _ & Hb' & _).
    by destruct Heq as [-> | ->].
  - unfold node. rewrite list_lookup_total_alt.
    by rewrite (proj2 (lookup_ge_None _ _)) by lia.
Qed.

(** *** The loops of the pass as sequences of observations *)

Definition tensor_value (g : Graph) (v : ValueId) : Prop :=
  isSubtypeOfTensor (type_ (value g v)) = true.

#[global] Instance tensor_value_dec g v : Decision (tensor_value g v).
Proof. unfold tensor_value. apply _. Defined.

Lemma observe_values_fold t g l :
  ∀ vs g1,
    observes t g vs g1 →
    Forall (λ v, v < length (g_values g) ∧
                 node_ (value g v) < length (g_nodes g)) l →
    observes t g (vs ++ filter (tensor_value g) l)
             (fold_left (observe_value t) l g1).
Proof.
  induction l as [|v l IH]; intros vs g1 Hobs Hl; simpl.
  { by rewrite filter_nil, app_nil_r. }
  apply Forall_cons in Hl as [[Hv Hn] Hl].
  pose proof (observes_value_old t g vs g1 v Hobs Hv) as Hval.
  pose proof (observes_nodes_length t g vs g1 Hobs) as HN.
  pose proof (observes_values_length t g vs g1 Hobs) as HV.
  destruct (decide (tensor_value g v)) as [Ht|Ht].
  - rewrite filter_cons_True by done.
    destruct (observe_value_eq t g1 v) as (F & HF & ->).
    + lia.
    + rewrite Hval. lia.
    + by rewrite Hval.
    + rewrite (cons_middle v), app_assoc. apply IH; [|done].
      by apply observes_snoc.
  - rewrite filter_cons_False by done.
    rewrite observe_value_skip; [by apply IH|].
    rewrite Hval. unfold tensor_value in Ht. by destruct (isSubtypeOfTensor _).
Qed.

Lemma observes_graph_inputs t g vs g1 :
  observes t g vs g1 →
  input_ (block g top_block) < length (g_nodes g) →
  graph_inputs g1 = graph_inputs g.
Proof.
  intros Hobs Hin. unfold graph_inputs, block_inputs.
  destruct (observes_blocks t g vs g1 Hobs) as (_ & Hb).
  destruct (Hb top_block) as (-> & _).
  by rewrite (observes_node_old t g vs g1).
Qed.

Lemma observe_inputs_fold t g ip l :
  ip < length (g_nodes g) →
  input_ (block g top_block) < length (g_nodes g) →
  ∀ vs g1 s,
    observes t g vs g1 →
    Forall (λ idx, graph_inputs g !!! idx < length (g_values g)) l →
    ∃ g2 s' vs',
      fold_left (observe_input t ip) l (g1, s) = (g2, s') ∧
      vs' = vs ++ filter (tensor_value g) ((graph_inputs g !!!.) <$> l) ∧
      observes t g vs' g2 ∧
      ∀ n, n ∈ s' ↔
           n ∈ s ∨ ∃ i, length vs ≤ i < length vs' ∧
                        n = length (g_nodes g) + 2 * i + 1.
Proof.
  intros Hip Hparam.
  induction l as [|idx l IH]; intros vs g1 s Hobs Hl;
    cbn [fold_left fmap list_fmap].
  { exists g1, s, vs. rewrite filter_nil, app_nil_r. split_and!; try done.
    intros n. split; [by left|]. intros [?|(i & ? & _)]; [done|lia]. }
  apply Forall_cons in Hl as [Hv Hl].
  pose proof (observes_graph_inputs t g vs g1 Hobs Hparam) as Hins.
  pose proof (observes_value_old t g vs g1 _ Hobs Hv) as Hval.
  pose proof (observes_nodes_length t g vs g1 Hobs) as HN.
  pose proof (observes_values_length t g vs g1 Hobs) as HV.
  destruct (decide (tensor_value g (graph_inputs g !!! idx))) as [Ht|Ht].
  - rewrite filter_cons_True by done.
    destruct (observe_input_eq t ip g1 s idx) as (F & HF & ->).
    + rewrite Hins. lia.
    + lia.
    + by rewrite Hins, Hval.
    + rewrite Hins.
      destruct (IH (vs ++ [graph_inputs g !!! idx])
                   (observed t g1 (graph_inputs g !!! idx)
                             (owning_block (node g1 ip)) F)
                   ({[length (g_nodes g1) + 1]} ∪ s))
        as (g2 & s' & vs' & Hfold & Hvs' & Hobs' & Hs'); [|done|].
      { by apply observes_snoc. }
      exists g2, s', vs'. split_and!; [done| |done|].
      * by rewrite Hvs', <-app_assoc.
      * intros n. rewrite Hs', elem_of_union, elem_of_singleton.
        rewrite length_app in *. simpl in *.
        assert (length vs < length vs').
        { rewrite Hvs', !length_app. simpl. lia. }
        split.
        -- intros [[->| ?]|(i & ? & ->)]; [right|by left|right].
           ++ exists (length vs). lia.
           ++ exists i. lia.
        -- intros [?|(i & ? & ->)]; [left; by right|].
           destruct (decide (i = length vs)) as [->|?].
           ++ left. left. lia.
           ++ right. exists i. lia.
  - rewrite filter_cons_False by done.
    rewrite observe_input_skip; [by apply IH|].
    rewrite Hins, Hval. unfold tensor_value in Ht.
    by destruct (isSubtypeOfTensor _).
Qed.

Lemma bind_filter_restrict {A B} (P : A → Prop) `{!∀ x, Decision (P x)}
    (f : A → list B) (l : list A) :
  (∀ x, x ∈ l → ¬ P x → f x = []) → l ≫= f = filter P l ≫= f.
Proof.
  induction l as [|x l IH]; intros Hf; [done|].
  rewrite filter_cons, bind_cons, IH
    by (intros y Hy; apply Hf; by right).
  case_decide as HP; [done|]. rewrite (Hf x) by (done || left). done.
Qed.

Lemma filter_all {A} (P : A → Prop) `{!∀ x, Decision (P x)} (l : list A) :
  (∀ x, x ∈ l → P x) → filter P l = l.
Proof.
  induction l as [|x l IH]; intros Hl; [done|].
  rewrite filter_cons_True by (apply Hl; left).
  f_equal. apply IH. intros y Hy. apply Hl. by right.
Qed.

Lemma filter_bind {A B} (P : A → Prop) `{!∀ x, Decision (P x)}
    (f : A → list B) (l : list A) :
  filter P l ≫= f = l ≫= λ x, if decide (P x) then f x else [].
Proof.
  induction l as [|x l IH]; [done|].
  rewrite filter_cons, (bind_cons _ x l), <-IH. by case_decide.
Qed.

Lemma visit_order_ext g g1 :
  (∀ b, sub_blocks g1 b = sub_blocks g b) →
  ∀ fuel stack, visit_order fuel g1 stack = visit_order fuel g stack.
Proof.
  intros Hsub fuel. induction fuel as [|fuel IH]; intros stack; simpl; [done|].
  destruct stack as [|b stack]; [done|]. by rewrite Hsub, IH.
Qed.

Section after_inputs.
Variables (t : Template) (g g1 : Graph) (vs : list ValueId).
Variable s : gset NodeId.
Hypothesis Hwf : wf_graph g.
Hypothesis Hobs : observes t g vs g1.
(** [s] holds the clones made so far. *)
Hypothesis Hs :
  ∀ n, n ∈ s ↔ ∃ i, i < length vs ∧ n = length (g_nodes g) + 2 * i + 1.

Lemma filter_old_block_nodes b :
  filter (λ n, n < length (g_nodes g)) (block_nodes g1 b) = block_nodes g b.
Proof.
  destruct (observes_blocks t g vs g1 Hobs) as (_ & Hb).
  destruct (Hb b) as (_ & _ & ->).
  apply filter_all. intros x Hx.
  by apply (wf_block_node g Hwf) in Hx as (? & _).
Qed.

Lemma observes_sub_blocks b : sub_blocks g1 b = sub_blocks g b.
Proof.
  unfold sub_blocks.
  rewrite (bind_filter_restrict (λ n, n < length (g_nodes g)))
    by (intros x _ Hx; apply (observes_new_blocks t g vs); [done|lia]).
  rewrite filter_old_block_nodes.
  apply Forall_bind_ext, Forall_forall. intros n Hn.
  apply (wf_block_node g Hwf) in Hn as (Hn & _).
  by rewrite (observes_node_old t g vs g1).
Qed.

Lemma observes_skipped_blocks n :
  ¬ observed_node g1 s n → blocks (node g1 n) = [].
Proof.
  intros Hno.
  destruct (decide (n < length (g_nodes g))) as [Hlt|Hge];
    [|apply (observes_new_blocks t g vs); [done|lia]].
  rewrite (observes_node_old t g vs g1) by done.
  apply (wf_constant_blocks g Hwf).
  destruct (decide (kind (node g n) = "prim::Constant")) as [|Hk]; [done|].
  exfalso. apply Hno. split.
  - by rewrite (observes_node_old t g vs g1).
  - intros (i & _ & ->)%Hs. lia.
Qed.

Lemma observes_observed_in_block b :
  observed_in_block g1 s b = observed_in_block g ∅ b.
Proof.
  unfold observed_in_block. rewrite !filter_bind.
  rewrite (bind_filter_restrict (λ n, n < length (g_nodes g))).
  - rewrite filter_old_block_nodes.
    apply Forall_bind_ext, Forall_forall. intros n Hn.
    apply (wf_block_node g Hwf) in Hn as (Hn & _).
    rewrite (observes_node_old t g vs g1 n) by done.
    apply decide_ext. unfold observed_node.
    rewrite (observes_node_old t g vs g1 n) by done.
    split; intros [Hk Hin]; (split; [done|]).
    + apply not_elem_of_empty.
    + intros (i & _ & ->)%Hs. lia.
  - intros n _ Hn. case_decide as Hon; [|done].
    destruct (decide (n < length (g_nodes g1))) as [Hlt|Hge].
    + destruct (observes_new_node t g vs g1 n Hobs) as (i & v & Hv & Heq);
        [lia|].
      destruct (observes_at t g vs g1 Hobs i v Hv)
        as (cv & touts & o & _ & Hk & _).
      destruct Hon as [Hkind Hnin]. destruct Heq as [-> | ->]; [done|].
      exfalso. apply Hnin, Hs. exists i. split; [|done].
      by apply lookup_lt_Some in Hv.
    + unfold node. rewrite list_lookup_total_alt.
      by rewrite (proj2 (lookup_ge_None _ _)) by lia.
Qed.
End after_inputs.

(** *** The whole pass *)

Lemma lookups_seq_take {A} `{!Inhabited A} (l : list A) num :
  num ≤ length l → (l !!!.) <$> seq 0 num = take num l.
Proof.
  induction num as [|num IH]; intros Hnum; [done|].
  rewrite seq_S, fmap_app, IH by lia. simpl.
  destruct (lookup_lt_is_Some_2 l num) as [x Hx]; [lia|].
  rewrite (take_S_r l num x) by done.
  by rewrite (list_lookup_total_correct l num x).
Qed.

Lemma first_node_valid g :
  wf_graph g → first_node g < length (g_nodes g).
Proof.
  intros Hwf. unfold first_node.
  destruct (block_nodes g top_block) as [|n l] eqn:Hl.
  - assert (HB : 0 < length (g_blocks g)) by apply Hwf.
    by destruct (wf_block_of g Hwf top_block HB) as (_ & _ & Hout & _).
  - assert (n ∈ block_nodes g top_block) as Hn by (rewrite Hl; left).
    by apply (wf_block_node g Hwf) in Hn as (? & _).
Qed.

Lemma graph_inputs_valid g v :
  wf_graph g → v ∈ graph_inputs g → v < length (g_values g).
Proof.
  intros Hwf Hv. unfold graph_inputs, block_inputs in Hv.
  assert (HB : 0 < length (g_blocks g)) by apply Hwf.
  destruct (wf_block_of g Hwf top_block HB) as (_ & _ & _ & _ & Hin & _).
  destruct (wf_node_of g Hwf _ Hin) as (_ & _ & _ & Hout & _).
  rewrite Forall_forall in Hout. by apply Hout in Hv as (? & _).
Qed.

Lemma observed_in_block_valid g s b v :
  wf_graph g → v ∈ observed_in_block g s b →
  v < length (g_values g) ∧ node_ (value g v) < length (g_nodes g).
Proof.
  intros Hwf (n & Hv & Hn)%list_elem_of_bind.
  apply list_elem_of_filter in Hn as (_ & Hn).
  apply (wf_block_node g Hwf) in Hn as (Hn & _).
  destruct (wf_node_of g Hwf n Hn) as (_ & _ & _ & Hout & _).
  rewrite Forall_forall in Hout. apply Hout in Hv as (? & ->). done.
Qed.

(** The values the pass observes, in the order in which it does:
    the tensors among the first [num] graph inputs, then the tensors
    among the outputs of the nodes that are not constants, block by
    block in the order of the visit. *)
Definition values_observed (g : Graph) (num : nat) : list ValueId :=
  filter (tensor_value g) (take num (graph_inputs g))
  ++ filter (tensor_value g)
            (block_order g top_block ≫= observed_in_block g ∅).

Lemma InsertObserverNodes_observes t g num fuel :
  wf_graph g → num ≤ length (graph_inputs g) →
  length (g_blocks g) < fuel →
  ∃ g', InsertObserverNodes fuel g t num = Some (g', Returned) ∧
        observes t g (values_observed g num) g'.
Proof.
  intros Hwf Hnum Hfuel. unfold InsertObserverNodes.
  rewrite decide_True by done.
  assert (HB : 0 < length (g_blocks g)) by apply Hwf.
  destruct (observe_inputs_fold t g (first_node g) (seq 0 num)
              (first_node_valid g Hwf)
              ltac:(by destruct (wf_block_of g Hwf top_block HB)
                         as (_ & _ & _ & _ & ? & _))
              [] g ∅ (observes_nil t g))
    as (g1 & s & vs1 & -> & Hvs1 & Hobs1 & Hs).
  { apply Forall_forall. intros idx [_ Hidx]%elem_of_seq.
    apply (graph_inputs_valid g _ Hwf), list_elem_of_lookup_total_2. lia. }
  rewrite lookups_seq_take in Hvs1 by done. simpl in Hvs1.
  assert (Hs' : ∀ n, n ∈ s ↔
            ∃ i, i < length vs1 ∧ n = length (g_nodes g) + 2 * i + 1).
  { intros n. rewrite Hs. split.
    - intros [[]%elem_of_empty|(i & ? & ?)]. exists i. lia.
    - intros (i & ? & ?). right. exists i. simpl. lia. }
  rewrite observe_blocks_order
    by apply (observes_skipped_blocks t g g1 vs1 s Hwf Hobs1 Hs').
  rewrite (visit_order_ext g g1)
    by apply (observes_sub_blocks t g g1 vs1 Hwf Hobs1).
  rewrite visit_order_top;
    [|apply wf_nest|apply wf_parent|apply wf_siblings|..]; try done.
  simpl. eexists. split; [done|].
  rewrite (Forall_bind_ext _ (observed_in_block g ∅)).
  - unfold values_observed. rewrite <-Hvs1.
    apply observe_values_fold; [done|].
    apply Forall_forall. intros v (b & Hv & _)%list_elem_of_bind.
    by apply (observed_in_block_valid g ∅ b).
  - apply Forall_forall. intros b _.
    apply (observes_observed_in_block t g g1 vs1 s Hwf Hobs1 Hs').
Qed.

(** The outputs of the nodes, in all blocks, that are not constants. *)
Definition observable_outputs (g : Graph) : list ValueId :=
  seq 0 (length (g_blocks g)) ≫= λ b,
    filter (λ n, kind (node g n) ≠ "prim::Constant") (block_nodes g b)
    ≫= λ n, outputs (node g n).

Lemma observed_in_block_empty g b :
  observed_in_block g ∅ b
  = filter (λ n, kind (node g n) ≠ "prim::Constant") (block_nodes g b)
    ≫= λ n, outputs (node g n).
Proof.
  unfold observed_in_block. f_equal. apply list_filter_iff.
  intros n. unfold observed_node. split; [by intros [? _]|].
  intros ?. split; [done|apply not_elem_of_empty].
Qed.

Lemma values_observed_length g num :
  wf_graph g →
  length (values_observed g num)
  = length (filter (tensor_value g) (take num (graph_inputs g)))
    + length (filter (tensor_value g) (observable_outputs g)).
Proof.
  intros Hwf. unfold values_observed, observable_outputs.
  rewrite length_app. f_equal. apply Permutation_length.
  apply filter_Permutation.
  rewrite (block_order_all g (wf_nest g Hwf) (wf_parent g Hwf)
             (wf_siblings g Hwf) (wf_owned g Hwf)) by apply Hwf.
  rewrite (Forall_bind_ext (observed_in_block g ∅)
             (λ b, filter (λ n, kind (node g n) ≠ "prim::Constant")
                          (block_nodes g b)
                   ≫= λ n, outputs (node g n))); [done|].
  apply Forall_forall. intros b _. apply observed_in_block_empty.
Qed.

Definition plain_observer : Template :=
  mkTemplate "prim::PythonOp" "" "" None [] [].

(** C5.  On a well-formed graph with [k] tensors among its first [num]
    inputs and [j] tensors among the outputs of the nodes, in all
    blocks, that are not constants, the pass returns and has added
    [2 * (k + j)] nodes to the graph, [k + j] pairs of a name constant
    and an observer clone, one pair for each observed value; each clone
    has the outputs copied from the template and one more, whose type
    is the type of the value it observes. *)
Theorem observers_created t g num fuel :
  wf_graph g → num ≤ length (graph_inputs g) →
  length (g_blocks g) < fuel →
  let k := length (filter (tensor_value g) (take num (graph_inputs g))) in
  let j := length (filter (tensor_value g) (observable_outputs g)) in
  ∃ g', InsertObserverNodes fuel g t num = Some (g', Returned) ∧
        length (g_nodes g') = length (g_nodes g) + 2 * (k + j) ∧
        length (values_observed g num) = k + j ∧
        ∀ i, i < k + j →
             ∃ v, values_observed g num !! i = Some v ∧
                  tensor_value g v ∧
                  observer_at t g g' (length (g_nodes g) + 2 * i) v.
Proof.
  intros Hwf Hnum Hfuel k j.
  destruct (InsertObserverNodes_observes t g num fuel Hwf Hnum Hfuel)
    as (g' & Hrun & Hobs).
  pose proof (values_observed_length g num Hwf) as Hlen. fold k j in Hlen.
  exists g'. split_and!; [done| |done|].
  - rewrite (observes_nodes_length t g _ g' Hobs). lia.
  - intros i Hi.
    destruct (lookup_lt_is_Some_2 (values_observed g num) i) as [v Hv]; [lia|].
    exists v. split_and!; [done| |by apply (observes_at t g _ g' Hobs)].
    apply list_elem_of_lookup_2 in Hv. unfold values_observed in Hv.
    by apply elem_of_app in Hv as [(? & _)%list_elem_of_filter
                                   |(? & _)%list_elem_of_filter].
Qed.

Lemma observers_created_witness :
  ∃ g', InsertObserverNodes 6 nested plain_observer 2 = Some (g', Returned) ∧
        length (g_nodes g') = 16 + 2 * (1 + 6).
Proof.
  destruct (observers_created plain_observer nested 2 6)
    as (g' & Hrun & Hlen & _).
  - exact wf_nested.
  - simpl. lia.
  - simpl. lia.
  - exists g'. split; [exact Hrun|exact Hlen].
Defined.

(** C8.  On a well-formed graph and with a template whose inputs are
    values of the graph, for every value [v] that the pass observes
    the clone reads [v] and its added output carries the type of [v]
    and the name of [v] followed by ".observed"; no node reads that
    output, and every node that was in the graph is exactly as it was,
    so every consumer of [v] still reads [v]. *)
Theorem observation_is_not_intrusive t g num fuel :
  wf_graph g →
  Forall (λ v, v < length (g_values g)) (t_inputs t) →
  num ≤ length (graph_inputs g) →
  length (g_blocks g) < fuel →
  ∃ g', InsertObserverNodes fuel g t num = Some (g', Returned) ∧
        (∀ n, n < length (g_nodes g) → node g' n = node g n) ∧
        (∀ v, v < length (g_values g) → value g' v = value g v) ∧
        ∀ i v, values_observed g num !! i = Some v →
          let clone := length (g_nodes g) + 2 * i + 1 in
          ∃ touts o,
            outputs (node g' clone) = touts ++ [o] ∧
            length touts = length (t_outputs t) ∧
            type_ (value g' o) = type_ (value g v) ∧
            unique_name_ (value g' o) = uniqueName g v +:+ ".observed" ∧
            v ∈ inputs (node g' clone) ∧
            consumers g' o = [] ∧
            consumers g v ⊆ consumers g' v.
Proof.
  intros Hwf Ht Hnum Hfuel.
  destruct (InsertObserverNodes_observes t g num fuel Hwf Hnum Hfuel)
    as (g' & Hrun & Hobs).
  pose proof (observes_nodes_length t g _ g' Hobs) as HN.
  assert (Htensor : ∀ v, v ∈ values_observed g num → tensor_value g v).
  { intros v Hv. unfold values_observed in Hv.
    by apply elem_of_app in Hv as [(? & _)%list_elem_of_filter
                                   |(? & _)%list_elem_of_filter]. }
  exists g'. split_and!; [done|..].
  - intros n Hn. by apply (observes_node_old t g (values_observed g num) g').
  - intros v Hv. by apply (observes_value_old t g (values_observed g num) g').
  - intros i v Hv clone. subst clone.
    destruct (observes_at t g _ g' Hobs i v Hv)
      as (cv & touts & o & Hc & _ & _ & _ & _ & _ & _ & Hin & Hout & Hlen
          & _ & Hcv & Ho & _ & Hval).
    rewrite <-Nat.add_assoc in Hval.
    exists touts, o. rewrite Hout, Hin, Hval. simpl.
    split_and!; try done.
    + rewrite elem_of_app, elem_of_cons. right. by left.
    + apply Rewrites.filter_none. intros n Hn%elem_of_seq Hread.
      destruct (decide (n < length (g_nodes g))) as [Hold|Hnew].
      * rewrite (observes_node_old t g _ g' n Hobs Hold) in Hread.
        destruct (wf_node_of g Hwf n Hold) as (_ & _ & _ & _ & Hins).
        rewrite Forall_forall in Hins. apply Hins in Hread. lia.
      * destruct (observes_new_node t g _ g' n Hobs) as (i' & v' & Hv' & Heq);
          [lia|].
        destruct (observes_at t g _ g' Hobs i' v' Hv')
          as (cv' & touts' & o' & _ & _ & _ & Hcin & _ & _ & _ & Hin' & _ & _
              & _ & Hcv' & _ & Hty' & _).
        destruct Heq as [-> | ->].
        -- rewrite Hcin in Hread. by apply elem_of_nil in Hread.
        -- rewrite Hin', elem_of_app, !elem_of_cons, elem_of_nil in Hread.
           destruct Hread as [Hread|[->|[->|[]]]].
           ++ rewrite Forall_forall in Ht. apply Ht in Hread. lia.
           ++ pose proof (observes_valid t g _ g' Hobs) as Hvalid.
              rewrite Forall_forall in Hvalid.
              apply list_elem_of_lookup_2, Hvalid in Hv'. lia.
           ++ rewrite Hval in Hty'. simpl in Hty'.
              apply list_elem_of_lookup_2, Htensor in Hv.
              unfold tensor_value in Hv. by rewrite Hty' in Hv.
    + intros n (Hread & Hn%elem_of_seq)%list_elem_of_filter.
      apply list_elem_of_filter. split.
      * by rewrite (observes_node_old t g (values_observed g num) g' n Hobs)
          by lia.
      * apply elem_of_seq. lia.
Qed.

Lemma observation_is_not_intrusive_witness :
  ∃ g', InsertObserverNodes 6 nested plain_observer 2 = Some (g', Returned) ∧
        node g' 13 = node nested 13.
Proof.
  destruct (observation_is_not_intrusive plain_observer nested 2 6)
    as (g' & Hrun & Hold & _).
  - exact wf_nested.
  - constructor.
  - simpl. lia.
  - simpl. lia.
  - exists g'. split; [exact Hrun|]. apply Hold. simpl. lia.
Defined.

End Observers.

(** ** The entry points *)

Module Passes.
Import IR Quantization Rewrites Traversal.

(** C6.  Each of the three passes that are not implemented raises a
    runtime error whatever the graph, and hands the graph back as it
    got it. *)
Theorem unimplemented_passes_raise g :
  Forall (λ pass : Graph → Graph * Outcome,
            (pass g).1 = g ∧
            (pass g).2 = Raised (RuntimeError "Pass not implemented yet!") ∧
            (pass g).2 ≠ Returned)
         [PropagateQuantInfo; QuantLinting; FoldQuantNodesIntoInputsOutputs].
Proof. repeat constructor; done. Qed.

(** C7.  Asked to treat more inputs as activations than the graph has,
    [InsertObserverNodes] fails its assertion, whatever the bound on the
    traversal. *)
Theorem too_many_activation_inputs fuel g t num :
  length (graph_inputs g) < num →
  snd <$> InsertObserverNodes fuel g t num = Some (Raised AssertionFailure).
Proof.
  intros Hnum. unfold InsertObserverNodes.
  rewrite decide_False by lia. done.
Qed.

Lemma too_many_activation_inputs_witness :
  snd <$> InsertObserverNodes 0 fanout3 Observers.plain_observer 2
  = Some (Raised AssertionFailure).
Proof. apply too_many_activation_inputs. simpl. lia. Defined.

(** C10.  When that assertion fails the graph is the one the pass was
    given: nothing was inserted before the check. *)
Theorem failed_precondition_leaves_graph fuel g t num :
  length (graph_inputs g) < num →
  fst <$> InsertObserverNodes fuel g t num = Some g.
Proof.
  intros Hnum. unfold InsertObserverNodes.
  rewrite decide_False by lia. done.
Qed.

Lemma failed_precondition_leaves_graph_witness :
  fst <$> InsertObserverNodes 0 fanout3 Observers.plain_observer 2
  = Some fanout3.
Proof. apply failed_precondition_leaves_graph. simpl. lia. Defined.

(** [x -> relu -> v -> neg -> w], with both [v] and [w] returned: [v],
    the value 1, is an input of a node and an output of the block. *)
Definition shared_output : Graph :=
  mkGraph
    [ mkNode "prim::Param" "" [] [0] [] (Some 0) "" None;
      mkNode "prim::Return" "" [1; 2] [] [] (Some 0) "" None;
      mkNode "aten::relu" "aten::relu(Tensor self) -> Tensor"
             [0] [1] [] (Some 0) "" None;
      mkNode "aten::neg" "aten::neg(Tensor self) -> Tensor"
             [1] [2] [] (Some 0) "" None ]
    [ mkValue TensorType "x" 0; mkValue TensorType "v" 2;
      mkValue TensorType "w" 3 ]
    [ mkBlock [2; 3] 0 1 None ]
    "" 1.

(** The quantize nodes of [g] whose output is named after [name]. *)
Definition quantize_nodes_for (g : Graph) (name : string) : list NodeId :=
  filter (λ n, kind (node g n) = "aten::quantize_linear" ∧
               unique_name_ (value g (output g n)) = name +:+ ".quant")
         (seq 0 (length (g_nodes g))).

(** C1.  In [fanout3] the value [v] is read by three nodes; it is
    recorded once, gets one pair, and the three nodes read the output
    of its dequantize node.  In [shared_output] the value [v] is read by
    a node and returned by the block: the loop over the block outputs
    records it a second time without asking the look-up set, and the
    pass gives it two pairs, the second one feeding the first. *)
Theorem block_output_is_rewritten_twice :
  (quantOutputs <$> mark_blocks 2 fanout3 [top_block] (mkMarks [] [] ∅)
     = Some [1] ∧
   ∃ g', InsertQuantDequantNodes 2 fanout3 = Some g' ∧
         quantize_nodes_for g' "v" = [6] ∧
         inputs (node g' 7) = [output g' 6] ∧
         Forall (λ n, inputs (node g' n) = [output g' 7]) [3; 4; 5]) ∧
  (wf_graph shared_output ∧
   quantOutputs <$> mark_blocks 2 shared_output [top_block] (mkMarks [] [] ∅)
     = Some [1; 1] ∧
   ∃ g', InsertQuantDequantNodes 2 shared_output = Some g' ∧
         quantize_nodes_for g' "v" = [4; 8] ∧
         inputs (node g' 8) = [1; output g' 10; output g' 11] ∧
         inputs (node g' 9) = [output g' 8] ∧
         inputs (node g' 4) = [output g' 9; output g' 6; output g' 7] ∧
         inputs (node g' 5) = [output g' 4] ∧
         inputs (node g' 3) = [output g' 5]).
Proof.
  split.
  - split; [by vm_compute|].
    eexists. split; [by vm_compute|]. split_and!; [by vm_compute..|].
    repeat constructor.
  - split; [apply (bool_decide_unpack _); vm_compute; exact I|].
    split; [by vm_compute|].
    eexists. split; [by vm_compute|]. split_and!; by vm_compute.
Qed.

End Passes.

(** ** What the marking loop of InsertQuantDequantNodes records *)

Module Marking.
Import IR Quantization Traversal.

(** The marking loop seen as a sequence of events: node [n] reads [v],
    or a block returns [v]. *)
Inductive event :=
  | Reads (n : NodeId) (v : ValueId)
  | Returns (v : ValueId).

#[global] Instance event_eq_dec : EqDecision event.
Proof. solve_decision. Defined.

Definition block_events (g : Graph) (b : BlockId) : list event :=
  (block_nodes g b ≫= λ n, Reads n <$> inputs (node g n))
  ++ (Returns <$> block_outputs g b).

Definition apply_event (g : Graph) (m : Marks) (e : event) : Marks :=
  match e with
  | Reads n v => mark_input g n m v
  | Returns v => mark_block_output g m v
  end.

Lemma fold_left_fmap {A B C} (f : A → C → A) (h : B → C) (l : list B) a :
  fold_left f (h <$> l) a = fold_left (λ a x, f a (h x)) l a.
Proof. revert a. induction l as [|x l IH]; intros a; simpl; [done|apply IH]. Qed.

Lemma fold_left_bind {A B C} (f : A → C → A) (h : B → list C) (l : list B) a :
  fold_left f (l ≫= h) a = fold_left (λ a x, fold_left f (h x) a) l a.
Proof.
  revert a. induction l as [|x l IH]; intros a; [done|].
  rewrite bind_cons, fold_left_app. apply IH.
Qed.

Lemma fold_left_same {A B} (f1 f2 : A → B → A) (l : list B) a :
  (∀ a x, f1 a x = f2 a x) → fold_left f1 l a = fold_left f2 l a.
Proof.
  intros Hf. revert a. induction l as [|x l IH]; intros a; simpl; [done|].
  by rewrite Hf, IH.
Qed.

Lemma mark_block_events g m b :
  mark_block g m b = fold_left (apply_event g) (block_events g b) m.
Proof.
  unfold mark_block, block_events.
  rewrite fold_left_app, fold_left_fmap, fold_left_bind. f_equal.
  apply fold_left_same. intros m' n. by rewrite fold_left_fmap.
Qed.

Lemma mark_blocks_events g bs m :
  fold_left (mark_block g) bs m
  = fold_left (apply_event g) (bs ≫= block_events g) m.
Proof.
  rewrite fold_left_bind. apply fold_left_same. intros m' b.
  apply mark_block_events.
Qed.

(** A tensor produced by a quantizable node. *)
Definition output_ok (g : Graph) (v : ValueId) : Prop :=
  isSubtypeOfTensor (type_ (value g v)) = true ∧
  checkIfNodeQuantizable g (node_ (value g v)) = true.

(** A tensor whose producer is not quantizable, read by a quantizable
    node. *)
Definition input_ok (g : Graph) (v : ValueId) (n : NodeId) : Prop :=
  isSubtypeOfTensor (type_ (value g v)) = true ∧
  checkIfNodeQuantizable g (node_ (value g v)) = false ∧
  checkIfNodeQuantizable g n = true.

#[global] Instance output_ok_dec g v : Decision (output_ok g v).
Proof. unfold output_ok. apply _. Defined.
#[global] Instance input_ok_dec g v n : Decision (input_ok g v n).
Proof. unfold input_ok. apply _. Defined.

(** The pair an event adds to the input-side list. *)
Definition input_pair (g : Graph) (e : event) : list (ValueId * NodeId) :=
  match e with
  | Reads n v => if decide (input_ok g v n) then [(v, n)] else []
  | Returns _ => []
  end.

(** How often an event adds [v] to the output-side list on behalf of a
    block that returns it. *)
Definition returned (g : Graph) (v : ValueId) (e : event) : Prop :=
  e = Returns v ∧ output_ok g v.

#[global] Instance returned_dec g v e : Decision (returned g v e).
Proof. unfold returned. apply _. Defined.

Definition occurrences (v : ValueId) (l : list ValueId) : nat :=
  length (filter (λ x, x = v) l).

Definition no_marks : Marks := mkMarks [] [] ∅.

(** What the marks are after a sequence of events. *)
Definition marks_after (g : Graph) (es : list event) (m : Marks) : Prop :=
  (∀ v, v ∈ valueLookup m ↔ output_ok g v ∧ ∃ n, Reads n v ∈ es) ∧
  quantInputs m = es ≫= input_pair g ∧
  ∀ v, occurrences v (quantOutputs m)
       = (if decide (v ∈ valueLookup m) then 1 else 0)
         + length (filter (returned g v) es).

Lemma occurrences_snoc v x l :
  occurrences v (l ++ [x])
  = occurrences v l + (if decide (x = v) then 1 else 0).
Proof.
  unfold occurrences. rewrite filter_app, length_app. f_equal.
  rewrite filter_cons, filter_nil. by case_decide.
Qed.

Lemma returned_after_read g v es n v0 :
  length (filter (returned g v) (es ++ [Reads n v0]))
  = length (filter (returned g v) es).
Proof.
  rewrite filter_app, length_app.
  rewrite filter_cons_False, filter_nil; [simpl; lia|].
  by intros [? _].
Qed.

Lemma marks_after_step g es m e :
  marks_after g es m → marks_after g (es ++ [e]) (apply_event g m e).
Proof.
  intros (Hlook & Hin & Hout). unfold marks_after.
  assert (Hreads : ∀ v n0 v0,
            (∃ n, Reads n v ∈ es ++ [Reads n0 v0])
            ↔ (∃ n, Reads n v ∈ es) ∨ v = v0).
  { intros v n0 v0. split.
    - intros (n & [Hn|Hn%list_elem_of_singleton]%elem_of_app);
        [left; eauto|right; congruence].
    - intros [(n & Hn)| ->]; [exists n|exists n0];
        rewrite elem_of_app, list_elem_of_singleton; auto. }
  destruct e as [n v0|v0]; simpl.
  - (* a node reads [v0] *)
    unfold mark_input.
    destruct (isSubtypeOfTensor (type_ (value g v0))) eqn:Ht; simpl.
    2:{ split_and!.
        - intros v. rewrite Hlook, Hreads. unfold output_ok.
          split; [intros [? ?]; auto|].
          intros [Hok [?| ->]]; [done|]. destruct Hok. congruence.
        - rewrite bind_app, bind_singleton, Hin. simpl.
          rewrite decide_False, app_nil_r; [done|].
          unfold input_ok. intros [? _]. congruence.
        - intros v. by rewrite Hout, returned_after_read. }
    destruct (checkIfNodeQuantizable g (node_ (value g v0))) eqn:Hq.
    + assert (output_ok g v0) as Hok0 by done.
      assert (input_pair g (Reads n v0) = []) as Hpair.
      { simpl. rewrite decide_False; [done|].
        unfold input_ok. intros (_ & ? & _). congruence. }
      assert (∀ v, length (filter (returned g v) (es ++ [Reads n v0]))
                   = length (filter (returned g v) es)) as Hret
        by (intros v; apply returned_after_read).
      destruct (bool_decide (v0 ∈ valueLookup m)) eqn:Hseen.
      * apply bool_decide_eq_true in Hseen. split_and!.
        -- intros v. rewrite Hlook, Hreads. split; [intros [? ?]; auto|].
           intros [Hok [?| ->]]; [done|]. by apply Hlook.
        -- by rewrite bind_app, bind_singleton, Hpair, app_nil_r.
        -- intros v. by rewrite Hret.
      * apply bool_decide_eq_false in Hseen. simpl. split_and!.
        -- intros v. rewrite elem_of_union, elem_of_singleton, Hlook, Hreads.
           split.
           ++ intros [->|[? ?]]; auto.
           ++ intros [Hok [?| ->]]; auto.
        -- by rewrite bind_app, bind_singleton, Hpair, app_nil_r.
        -- intros v. rewrite occurrences_snoc, Hout, Hret.
           destruct (decide (v0 = v)) as [->|Hne].
           ++ rewrite decide_False by done.
              rewrite decide_True; [lia|]. apply elem_of_union. left.
              by apply elem_of_singleton.
           ++ destruct (decide (v ∈ valueLookup m)) as [Hv|Hv].
              ** rewrite decide_True; [lia|]. apply elem_of_union. by right.
              ** rewrite decide_False; [lia|].
                 rewrite elem_of_union, elem_of_singleton.
                 intros [?|?]; congruence.
    + assert (¬ output_ok g v0) as Hok0.
      { unfold output_ok. intros [_ ?]. congruence. }
      assert (∀ v, length (filter (returned g v) (es ++ [Reads n v0]))
                   = length (filter (returned g v) es)) as Hret
        by (intros v; apply returned_after_read).
      assert (Hlook' : ∀ v, v ∈ valueLookup m
                ↔ output_ok g v ∧ ∃ n', Reads n' v ∈ es ++ [Reads n v0]).
      { intros v. rewrite Hlook, Hreads. split; [intros [? ?]; auto|].
        intros [Hok [?| ->]]; [done|]. by destruct Hok0. }
      destruct (checkIfNodeQuantizable g n) eqn:Hn; simpl.
      * split_and!; [done| |intros v; by rewrite Hret].
        rewrite bind_app, bind_singleton, Hin. simpl.
        by rewrite decide_True.
      * split_and!; [done| |intros v; by rewrite Hret].
        rewrite bind_app, bind_singleton, Hin. simpl.
        rewrite decide_False, app_nil_r; [done|].
        unfold input_ok. intros (_ & _ & ?). congruence.
  - (* a block returns [v0] *)
    assert (Hlook' : ∀ v, v ∈ valueLookup m
              ↔ output_ok g v ∧ ∃ n', Reads n' v ∈ es ++ [Returns v0]).
    { intros v. rewrite Hlook. split.
      - intros [? (n & ?)]. split; [done|]. exists n.
        rewrite elem_of_app. by left.
      - intros [? (n & [?|Hn%list_elem_of_singleton]%elem_of_app)];
          [eauto|done]. }
    unfold mark_block_output.
    destruct (checkIfNodeQuantizable g (node_ (value g v0))) eqn:Hq;
      destruct (isSubtypeOfTensor (type_ (value g v0))) eqn:Ht;
      cbn [andb quantInputs quantOutputs valueLookup];
      (split_and!;
         [done
         |rewrite bind_app, bind_singleton; cbn [input_pair];
          by rewrite app_nil_r|]);
      intros v; rewrite ?occurrences_snoc, Hout, filter_app, length_app,
        filter_cons, filter_nil; unfold returned, output_ok;
      generalize (if decide (v ∈ valueLookup m) then 1 else 0); intros k.
    + destruct (decide (v0 = v)) as [->|Hne].
      * rewrite decide_True by done. simpl. lia.
      * rewrite decide_False by (intros [? _]; congruence). simpl. lia.
    + rewrite decide_False by (intros [[= ->] [? ?]]; congruence). simpl. lia.
    + rewrite decide_False by (intros [[= ->] [? ?]]; congruence). simpl. lia.
    + rewrite decide_False by (intros [[= ->] [? ?]]; congruence). simpl. lia.
Qed.

Lemma marks_after_events g es :
  marks_after g es (fold_left (apply_event g) es no_marks).
Proof.
  induction es as [|e es IH] using rev_ind.
  - split_and!; simpl; try done. intros v. split.
    + by intros ?%elem_of_empty.
    + by intros [_ (n & ?%elem_of_nil)].
  - rewrite fold_left_app. simpl. by apply marks_after_step.
Qed.

(** *** The two work lists in terms of the graph *)

(** The values read by the nodes of the blocks [bs], one entry per
    input position, and the values those blocks return. *)
Definition values_read (g : Graph) (bs : list BlockId) : list ValueId :=
  bs ≫= λ b, block_nodes g b ≫= λ n, inputs (node g n).

Definition values_returned (g : Graph) (bs : list BlockId) : list ValueId :=
  bs ≫= block_outputs g.

Lemma elem_of_events_reads g bs v :
  (∃ n, Reads n v ∈ bs ≫= block_events g) ↔ v ∈ values_read g bs.
Proof.
  unfold values_read, block_events. split.
  - intros (n & (b & He & Hb)%list_elem_of_bind).
    apply list_elem_of_bind. exists b. split; [|done].
    apply elem_of_app in He as [He|(? & ? & _)%list_elem_of_fmap]; [|done].
    apply list_elem_of_bind in He as (n' & (v' & [= -> ->] & Hv)%list_elem_of_fmap & Hn).
    apply list_elem_of_bind. eauto.
  - intros (b & (n & Hv & Hn)%list_elem_of_bind & Hb)%list_elem_of_bind.
    exists n. apply list_elem_of_bind. exists b. split; [|done].
    apply elem_of_app. left. apply list_elem_of_bind. exists n.
    split; [|done]. apply list_elem_of_fmap. eauto.
Qed.

Lemma filter_returned_reads g v (l : list ValueId) n :
  filter (returned g v) (Reads n <$> l) = [].
Proof.
  induction l as [|x l IH]; [done|].
  rewrite fmap_cons, filter_cons_False; [done|]. by intros [? _].
Qed.

Lemma filter_returned_returns g v (l : list ValueId) :
  length (filter (returned g v) (Returns <$> l))
  = if decide (output_ok g v) then occurrences v l else 0.
Proof.
  induction l as [|x l IH]; [by case_decide|].
  rewrite fmap_cons, filter_cons.
  destruct (decide (returned g v (Returns x))) as [[[= ->] Hok]|Hno].
  - cbn [length]. rewrite IH, !decide_True by done.
    unfold occurrences. by rewrite filter_cons_True.
  - rewrite IH. case_decide as Hok; [|done].
    unfold occurrences. rewrite filter_cons_False; [done|].
    intros ->. by apply Hno.
Qed.

Lemma filter_returned_events g v bs :
  length (filter (returned g v) (bs ≫= block_events g))
  = if decide (output_ok g v) then occurrences v (values_returned g bs)
    else 0.
Proof.
  unfold values_returned, occurrences.
  induction bs as [|b bs IH]; [by case_decide|].
  rewrite !bind_cons, !filter_app, !length_app, IH.
  unfold block_events. rewrite filter_app, length_app.
  rewrite filter_returned_returns.
  assert (filter (returned g v)
            (block_nodes g b ≫= λ n, Reads n <$> inputs (node g n)) = [])
    as ->.
  { induction (block_nodes g b) as [|n l IHl]; [done|].
    by rewrite bind_cons, filter_app, filter_returned_reads, IHl. }
  unfold occurrences. case_decide; simpl; lia.
Qed.

Lemma input_pairs_events g bs :
  (bs ≫= block_events g) ≫= input_pair g
  = bs ≫= λ b, block_nodes g b ≫= λ n,
      (λ v, (v, n)) <$> filter (λ v, input_ok g v n) (inputs (node g n)).
Proof.
  induction bs as [|b bs IH]; [done|].
  rewrite !bind_cons, bind_app, IH. f_equal.
  unfold block_events. rewrite bind_app.
  assert ((Returns <$> block_outputs g b) ≫= input_pair g = []) as ->.
  { induction (block_outputs g b) as [|x l IHl]; [done|].
    by rewrite fmap_cons, bind_cons, IHl. }
  rewrite app_nil_r.
  induction (block_nodes g b) as [|n l IHl]; [done|].
  rewrite !bind_cons, bind_app, IHl. f_equal.
  induction (inputs (node g n)) as [|x xs IHx]; [done|].
  rewrite fmap_cons, bind_cons, IHx, filter_cons. cbn [input_pair].
  by case_decide.
Qed.

Lemma marks_of_visit fuel g bs :
  visit_order fuel g [top_block] = Some bs →
  mark_blocks fuel g [top_block] no_marks
  = Some (fold_left (apply_event g) (bs ≫= block_events g) no_marks).
Proof.
  intros Hbs. by rewrite mark_blocks_order, Hbs, <-mark_blocks_events.
Qed.

Lemma occurrences_elem_of v (l : list ValueId) :
  v ∈ l ↔ 0 < occurrences v l.
Proof.
  unfold occurrences. induction l as [|x l IH].
  - rewrite elem_of_nil. simpl. lia.
  - rewrite elem_of_cons, filter_cons, IH.
    destruct (decide (x = v)) as [->|Hne]; simpl; [split; [lia|auto]|].
    split; [intros [?|?]; [congruence|done]|auto].
Qed.

Lemma marks_count fuel g bs :
  visit_order fuel g [top_block] = Some bs →
  ∃ m, mark_blocks fuel g [top_block] (mkMarks [] [] ∅) = Some m ∧
       ∀ v, occurrences v (quantOutputs m)
            = if decide (output_ok g v)
              then (if decide (v ∈ values_read g bs) then 1 else 0)
                   + occurrences v (values_returned g bs)
              else 0.
Proof.
  intros Hbs. eexists. split; [by apply marks_of_visit|].
  destruct (marks_after_events g (bs ≫= block_events g))
    as (Hlook & _ & Hout).
  intros v. rewrite Hout, filter_returned_events.
  destruct (decide (output_ok g v)) as [Hok|Hok].
  - f_equal. apply decide_ext. rewrite Hlook, elem_of_events_reads.
    split; [by intros [_ ?]|done].
  - rewrite decide_False; [done|]. rewrite Hlook. by intros [? _].
Qed.

Lemma marks_inputs fuel g bs :
  visit_order fuel g [top_block] = Some bs →
  ∃ m, mark_blocks fuel g [top_block] (mkMarks [] [] ∅) = Some m ∧
       quantInputs m
       = bs ≫= λ b, block_nodes g b ≫= λ n,
           (λ v, (v, n)) <$> filter (λ v, input_ok g v n) (inputs (node g n)).
Proof.
  intros Hbs. eexists. split; [by apply marks_of_visit|].
  destruct (marks_after_events g (bs ≫= block_events g)) as (_ & -> & _).
  apply input_pairs_events.
Qed.

Lemma marks_sound fuel g m :
  mark_blocks fuel g [top_block] (mkMarks [] [] ∅) = Some m →
  Forall (output_ok g) (quantOutputs m) ∧
  Forall (λ p, input_ok g p.1 p.2 ∧ p.1 ∈ inputs (node g p.2) ∧
               p.1 ∉ quantOutputs m)
         (quantInputs m).
Proof.
  intros Hm. rewrite mark_blocks_order in Hm.
  destruct (visit_order fuel g [top_block]) as [bs|] eqn:Hbs; [|done].
  injection Hm as <-.
  destruct (marks_count fuel g bs Hbs) as (m & Hm & Hcount).
  destruct (marks_inputs fuel g bs Hbs) as (m' & Hm' & Hlist).
  rewrite Hm in Hm'. injection Hm' as <-.
  rewrite mark_blocks_order, Hbs in Hm. injection Hm as Hm. rewrite Hm.
  assert (Hout : ∀ v, v ∈ quantOutputs m → output_ok g v).
  { intros v Hv%occurrences_elem_of. rewrite Hcount in Hv.
    destruct (decide (output_ok g v)); [done|lia]. }
  split; [by apply Forall_forall|].
  apply Forall_forall. intros [v n] Hp. rewrite Hlist in Hp.
  apply list_elem_of_bind in Hp as (b & Hp & _).
  apply list_elem_of_bind in Hp as (n' & Hp & _).
  apply list_elem_of_fmap in Hp as (v' & [= -> ->] & (Hok & Hv)%list_elem_of_filter).
  simpl. split_and!; [done..|].
  intros [_ Hq]%Hout. destruct Hok as (_ & ? & _). congruence.
Qed.

Lemma wf_visit_order fuel g :
  wf_graph g → length (g_blocks g) < fuel →
  visit_order fuel g [top_block] = Some (block_order g top_block).
Proof.
  intros Hwf Hfuel.
  apply visit_order_top;
    [apply wf_nest|apply wf_parent|apply wf_siblings|apply Hwf|]; done.
Qed.

(** X1.  How often the marking loop records a value for the output-side
    rewrite: never when it is not a tensor produced by a quantizable
    node; otherwise once for all the nodes that read it, and once more
    for every time a visited block returns it. *)
Theorem output_marks_counted fuel g bs :
  visit_order fuel g [top_block] = Some bs →
  ∃ m, mark_blocks fuel g [top_block] (mkMarks [] [] ∅) = Some m ∧
       ∀ v, occurrences v (quantOutputs m)
            = if decide (output_ok g v)
              then (if decide (v ∈ values_read g bs) then 1 else 0)
                   + occurrences v (values_returned g bs)
              else 0.
Proof. apply marks_count. Qed.

Lemma output_marks_counted_witness :
  ∃ m, mark_blocks 2 Passes.shared_output [top_block] (mkMarks [] [] ∅)
       = Some m ∧
       occurrences 1 (quantOutputs m) = 2.
Proof.
  destruct (output_marks_counted 2 Passes.shared_output [0])
    as (m & Hm & Hcount); [reflexivity|].
  exists m. split; [exact Hm|]. rewrite Hcount. by vm_compute.
Defined.

(** X2.  The input-side list holds, in the order of the visit, one pair
    [(v, n)] for every input position of a quantizable node [n] that
    holds a tensor [v] whose producer is not quantizable; a node that
    reads such a value twice is listed twice. *)
Theorem input_marks_listed fuel g bs :
  visit_order fuel g [top_block] = Some bs →
  ∃ m, mark_blocks fuel g [top_block] (mkMarks [] [] ∅) = Some m ∧
       quantInputs m
       = bs ≫= λ b, block_nodes g b ≫= λ n,
           (λ v, (v, n)) <$> filter (λ v, input_ok g v n) (inputs (node g n)).
Proof. apply marks_inputs. Qed.

Lemma input_marks_listed_witness :
  ∃ m, mark_blocks 6 nested [top_block] (mkMarks [] [] ∅) = Some m ∧
       quantInputs m = [(0, 12); (0, 5)].
Proof.
  destruct (input_marks_listed 6 nested [0; 2; 4; 3; 1])
    as (m & Hm & Hlist); [reflexivity|].
  exists m. split; [exact Hm|]. rewrite Hlist. by vm_compute.
Defined.

(** X3.  Whatever the marking loop records is a tensor; a value on the
    output-side list has a quantizable producer, a pair [(v, n)] on the
    input-side list has a quantizable [n] that reads [v] and a producer
    of [v] that is not quantizable; so no value is on both lists. *)
Theorem work_lists_are_disjoint fuel g m :
  mark_blocks fuel g [top_block] (mkMarks [] [] ∅) = Some m →
  Forall (output_ok g) (quantOutputs m) ∧
  Forall (λ p, input_ok g p.1 p.2 ∧ p.1 ∈ inputs (node g p.2) ∧
               p.1 ∉ quantOutputs m)
         (quantInputs m).
Proof. apply marks_sound. Qed.

Lemma work_lists_are_disjoint_witness :
  ∃ m, mark_blocks 6 nested [top_block] (mkMarks [] [] ∅) = Some m ∧
       Forall (output_ok nested) (quantOutputs m).
Proof.
  eexists. split; [reflexivity|].
  eapply proj1, (work_lists_are_disjoint 6 nested). reflexivity.
Defined.

Lemma not_quantizable g n :
  Forall (λ nd, schema nd ∉ quantnodeLookup) (g_nodes g) →
  checkIfNodeQuantizable g n = false.
Proof.
  intros Hno. unfold checkIfNodeQuantizable, node.
  apply bool_decide_eq_false.
  destruct (decide (n < length (g_nodes g))) as [Hn|Hn].
  - rewrite Forall_forall in Hno. apply Hno.
    by apply list_elem_of_lookup_total_2.
  - rewrite list_lookup_total_alt, (proj2 (lookup_ge_None _ _)) by lia.
    apply (bool_decide_unpack _). by vm_compute.
Qed.

(** [x -> neg -> y], nothing quantizable. *)
Definition plain : Graph :=
  mkGraph
    [ mkNode "prim::Param" "" [] [0] [] (Some 0) "" None;
      mkNode "prim::Return" "" [1] [] [] (Some 0) "" None;
      mkNode "aten::neg" "aten::neg(Tensor self) -> Tensor"
             [0] [1] [] (Some 0) "" None ]
    [ mkValue TensorType "x" 0; mkValue TensorType "y" 2 ]
    [ mkBlock [2] 0 1 None ]
    "" 1.

(** X4.  On a well-formed graph none of whose nodes is quantizable the
    pass returns the graph it was given. *)
Theorem nothing_quantizable_nothing_changes fuel g :
  wf_graph g → length (g_blocks g) < fuel →
  Forall (λ nd, schema nd ∉ quantnodeLookup) (g_nodes g) →
  InsertQuantDequantNodes fuel g = Some g.
Proof.
  intros Hwf Hfuel Hno.
  pose proof (wf_visit_order fuel g Hwf Hfuel) as Hbs.
  destruct (marks_count fuel g _ Hbs) as (m & Hm & _).
  destruct (marks_sound fuel g m Hm) as [Hout Hin].
  unfold InsertQuantDequantNodes. rewrite Hm.
  assert (quantOutputs m = []) as ->.
  { apply elem_of_nil_inv. intros v Hv.
    rewrite Forall_forall in Hout. apply Hout in Hv as [_ Hq].
    by rewrite not_quantizable in Hq. }
  assert (quantInputs m = []) as ->.
  { apply elem_of_nil_inv. intros p Hp.
    rewrite Forall_forall in Hin. apply Hin in Hp as [(_ & _ & Hq) _].
    by rewrite not_quantizable in Hq. }
  done.
Qed.

Lemma nothing_quantizable_nothing_changes_witness :
  InsertQuantDequantNodes 2 plain = Some plain.
Proof.
  apply nothing_quantizable_nothing_changes.
  - apply (bool_decide_unpack _). by vm_compute.
  - simpl. lia.
  - apply (bool_decide_unpack _). by vm_compute.
Defined.

End Marking.
